(** * SPARQL-based constraint components of pySHACL

    A shallow embedding of
    [pyshacl/constraints/sparql/sparql_based_constraint_components.py]:
    the validator cache and its constructors, the message templater, the
    ASK and SELECT validators and the bound evaluator, followed by the
    properties established about them. *)

From Stdlib Require Import ZArith String Ascii DecimalString.
From stdpp Require Import gmap strings list fin_maps.

Local Open Scope Z_scope.

(** ** Python values and RDF terms *)

(** The Python values an [rdflib.Literal] converts to ([Literal.value]). *)
Inductive PyVal :=
| PyStr (s : string)
| PyInt (z : Z)
| PyBool (b : bool)
| PyNone.

(** rdflib terms.  [URIRef] and [BNode] are [str] subclasses; a [Literal]
    carries its lexical form (what [str] returns) and its converted
    Python value. *)
Inductive Term :=
| URIRef (iri : string)
| BNode (ident : string)
| Literal (lexical : string) (value : PyVal).

#[global] Instance PyVal_eq_dec : EqDecision PyVal.
Proof. solve_decision. Defined.

#[global] Instance Term_eq_dec : EqDecision Term.
Proof. solve_decision. Defined.

Definition nonempty (s : string) : bool :=
  match s with EmptyString => false | String _ _ => true end.

(** [str(x)] on a Python value. *)
Definition py_str (v : PyVal) : string :=
  match v with
  | PyStr s => s
  | PyInt z => NilZero.string_of_int (Z.to_int z)
  | PyBool true => "True"
  | PyBool false => "False"
  | PyNone => "None"
  end.

(** [bool(x)] on a Python value. *)
Definition py_bool (v : PyVal) : bool :=
  match v with
  | PyStr s => nonempty s
  | PyInt z => negb (z =? 0)
  | PyBool b => b
  | PyNone => false
  end.

(** [str(t)] on a term: the IRI, the blank node identifier, or the
    lexical form of a literal. *)
Definition term_str (t : Term) : string :=
  match t with
  | URIRef s => s
  | BNode s => s
  | Literal lex _ => lex
  end.

(** Truth value of a term in a Python condition.  [URIRef] and [BNode]
    are strings, true when non-empty; [Literal.__bool__] answers
    [bool(self.value)] when the value is not [None] and [len(self) != 0]
    otherwise. *)
Definition term_truthy (t : Term) : bool :=
  match t with
  | URIRef s => nonempty s
  | BNode s => nonempty s
  | Literal lex PyNone => nonempty lex
  | Literal _ v => py_bool v
  end.

(** Truth value of [x] where [x] is a term or [None]. *)
Definition opt_truthy (o : option Term) : bool :=
  match o with
  | Some t => term_truthy t
  | None => false
  end.

(** [isinstance(m, rdflib.Literal) and isinstance(m.value, str)] *)
Definition is_string_literal (t : Term) : bool :=
  match t with
  | Literal _ (PyStr _) => true
  | _ => false
  end.

(** ** Exceptions *)

Inductive Exception :=
| ConstraintLoadError (msg link : string)
| ValidationFailure (msg : string).

Inductive Result (A : Type) :=
| Return (a : A)
| Raise (e : Exception).
Arguments Return {A} a.
Arguments Raise {A} e.

Definition is_ValidationFailure (e : Exception) : bool :=
  match e with ValidationFailure _ => true | _ => false end.

(** ** The shapes graph *)

Definition Triple : Type := Term * Term * Term.

(** A [ShapesGraph]: [graph_id] stands for [id(shacl_graph.graph)] and
    [triples] for the contents of [shacl_graph.graph]. *)
Record ShapesGraph := {
  graph_id : Z;
  triples : list Triple
}.

(** [sg.objects(node, predicate)] *)
Definition objects (sg : ShapesGraph) (node predicate : Term) : list Term :=
  omap (fun '(s, p, o) =>
          if decide (s = node /\ p = predicate) then Some o else None)
       (triples sg).

(** [set(xs)]: the distinct elements. *)
Definition py_set (xs : list Term) : list Term := remove_dups xs.

Definition SH (name : string) : Term :=
  URIRef ("http://www.w3.org/ns/shacl#" +:+ name).
Definition RDF_type : Term :=
  URIRef "http://www.w3.org/1999/02/22-rdf-syntax-ns#type".
Definition SH_ask : Term := SH "ask".
Definition SH_select : Term := SH "select".
Definition SH_message : Term := SH "message".
Definition SH_SPARQLSelectValidator : Term := SH "SPARQLSelectValidator".
Definition SH_SPARQLAskValidator : Term := SH "SPARQLAskValidator".

(** ** Validator objects *)

Inductive ValidatorClass :=
| SelectConstraintValidator
| AskConstraintValidator.

#[global] Instance ValidatorClass_eq_dec : EqDecision ValidatorClass.
Proof. solve_decision. Defined.

(** The attributes of a validator instance.  An attribute that has not
    been assigned yet is [None] ([initialised] is read with
    [getattr(self, 'initialised', False)]). *)
Record Validator := {
  cls : ValidatorClass;
  shacl_graph : option ShapesGraph;
  node : option Term;
  messages : option (list Term);
  initialised : bool;
  query_text : option string
}.

(** [object.__new__(cls)] *)
Definition object_new (c : ValidatorClass) : Validator :=
  {| cls := c; shacl_graph := None; node := None; messages := None;
     initialised := false; query_text := None |}.

Definition set_graph_node (sg : ShapesGraph) (n : Term) (self : Validator) :=
  {| cls := cls self; shacl_graph := Some sg; node := Some n;
     messages := messages self; initialised := initialised self;
     query_text := query_text self |}.

Definition set_messages (ms : list Term) (self : Validator) :=
  {| cls := cls self; shacl_graph := shacl_graph self; node := node self;
     messages := Some ms; initialised := true;
     query_text := query_text self |}.

Definition set_query_text (q : string) (self : Validator) :=
  {| cls := cls self; shacl_graph := shacl_graph self; node := node self;
     messages := messages self; initialised := initialised self;
     query_text := Some q |}.

Definition shacl_link : string :=
  "https://www.w3.org/TR/shacl/#ConstraintComponent".

(** [SPARQLConstraintComponentValidator.__init__]: the new state of
    [self] and the outcome. *)
Definition SPARQLConstraintComponentValidator_init
    (sg : ShapesGraph) (n : Term) (self : Validator)
  : Validator * Result unit :=
  if initialised self then (self, Return tt)
  else
    let self := set_graph_node sg n self in
    let message_nodes := py_set (objects sg n SH_message) in
    if forallb is_string_literal message_nodes
    then (set_messages message_nodes self, Return tt)
    else (self,
          Raise (ConstraintLoadError
                   "Validator sh:message must be an RDF Literal of type xsd:string."
                   shacl_link)).

(** The part shared by the two subclass constructors: exactly one value
    of the query predicate, a literal whose value is a string. *)
Definition load_query_text (sg : ShapesGraph) (n : Term) (predicate : Term)
    (count_msg type_msg : string) (self : Validator)
  : Validator * Result unit :=
  match py_set (objects sg n predicate) with
  | [Literal _ (PyStr q)] => (set_query_text q self, Return tt)
  | [_] => (self, Raise (ConstraintLoadError type_msg shacl_link))
  | _ => (self, Raise (ConstraintLoadError count_msg shacl_link))
  end.

(** [AskConstraintValidator.__init__] *)
Definition AskConstraintValidator_init
    (sg : ShapesGraph) (n : Term) (self : Validator)
  : Validator * Result unit :=
  match SPARQLConstraintComponentValidator_init sg n self with
  | (self, Raise e) => (self, Raise e)
  | (self, Return _) =>
      load_query_text sg n SH_ask
        "AskValidator must have exactly one value for sh:ask."
        "AskValidator sh:ask must be an RDF Literal of type xsd:string."
        self
  end.

(** [SelectConstraintValidator.__init__] *)
Definition SelectConstraintValidator_init
    (sg : ShapesGraph) (n : Term) (self : Validator)
  : Validator * Result unit :=
  match SPARQLConstraintComponentValidator_init sg n self with
  | (self, Raise e) => (self, Raise e)
  | (self, Return _) =>
      load_query_text sg n SH_select
        "SelectValidator must have exactly one value for sh:select."
        "SelectValidator sh:select must be an RDF Literal of type xsd:string."
        self
  end.

(** [type(self).__init__(self, shacl_graph, node)] *)
Definition init_of (c : ValidatorClass) :=
  match c with
  | SelectConstraintValidator => SelectConstraintValidator_init
  | AskConstraintValidator => AskConstraintValidator_init
  end.

(** ** The object store and the validator cache *)

(** Validator instances live in [heap]; a reference is an index into
    it, and two references are the same object exactly when they are
    equal.  [validator_cache] is the class attribute of that name, keyed
    by [(id(shacl_graph.graph), str(node))]. *)
Record World := {
  heap : list Validator;
  validator_cache : gmap (Z * string) nat
}.

Abbreviation Ref := nat.

Definition alloc (o : Validator) (w : World) : Ref * World :=
  (length (heap w),
   {| heap := heap w ++ [o]; validator_cache := validator_cache w |}).

Definition store (r : Ref) (o : Validator) (w : World) : World :=
  {| heap := <[r := o]> (heap w); validator_cache := validator_cache w |}.

Definition cache_store (k : Z * string) (r : Ref) (w : World) : World :=
  {| heap := heap w; validator_cache := <[k := r]> (validator_cache w) |}.

(** Run the instance's own [__init__] on the object behind [r]. *)
Definition run_init (r : Ref) (sg : ShapesGraph) (n : Term) (w : World)
  : World * Result unit :=
  match heap w !! r with
  | Some self =>
      let '(self', res) := init_of (cls self) sg n self in
      (store r self' w, res)
  | None => (w, Return tt)
  end.

(** [validator_type(shacl_graph, node)] for a subclass: its [__new__] is
    [object.__new__(cls)], and Python then runs its [__init__]. *)
Definition instantiate (c : ValidatorClass) (sg : ShapesGraph) (n : Term)
    (w : World) : World * Result Ref :=
  let '(r, w) := alloc (object_new c) w in
  match run_init r sg n w with
  | (w, Raise e) => (w, Raise e)
  | (w, Return _) => (w, Return r)
  end.

(** The choice of [validator_type] in
    [SPARQLConstraintComponentValidator.__new__]. *)
Definition validator_type (sg : ShapesGraph) (n : Term)
  : option ValidatorClass :=
  let type_vals := py_set (objects sg n RDF_type) in
  let validator_type :=
    if bool_decide (0 < length type_vals)%nat then
      if bool_decide (SH_SPARQLSelectValidator ∈ type_vals)
      then Some SelectConstraintValidator
      else if bool_decide (SH_SPARQLAskValidator ∈ type_vals)
      then Some AskConstraintValidator
      else None
    else None in
  let validator_type :=
    match validator_type with
    | Some c => Some c
    | None =>
        let sel_nodes := py_set (objects sg n SH_select) in
        if bool_decide (0 < length sel_nodes)%nat
        then Some SelectConstraintValidator else None
    end in
  match validator_type with
  | Some c => Some c
  | None =>
      let ask_nodes := py_set (objects sg n SH_ask) in
      if bool_decide (0 < length ask_nodes)%nat
      then Some AskConstraintValidator else None
  end.

Definition cache_key (sg : ShapesGraph) (n : Term) : Z * string :=
  (graph_id sg, term_str n).

(** [SPARQLConstraintComponentValidator.__new__].  A cached instance is
    always true in [if found_in_cache] (the classes define neither
    [__bool__] nor [__len__]). *)
Definition SPARQLConstraintComponentValidator_new
    (sg : ShapesGraph) (n : Term) (w : World) : World * Result Ref :=
  match validator_cache w !! cache_key sg n with
  | Some found_in_cache => (w, Return found_in_cache)
  | None =>
      match validator_type sg n with
      | None =>
          (w, Raise (ConstraintLoadError
                       "Validator must be of type sh:SPARQLSelectValidator or sh:SPARQLAskValidator and must have either a sh:select or a sh:ask predicate."
                       shacl_link))
      | Some c =>
          match instantiate c sg n w with
          | (w, Raise e) => (w, Raise e)
          | (w, Return validator) =>
              (cache_store (cache_key sg n) validator w, Return validator)
          end
      end
  end.

(** The call [SPARQLConstraintComponentValidator(shacl_graph, node)]:
    [__new__], and then, because what it returns is an instance of the
    class, that instance's [__init__] with the same arguments. *)
Definition resolve (sg : ShapesGraph) (n : Term) (w : World)
  : World * Result Ref :=
  match SPARQLConstraintComponentValidator_new sg n w with
  | (w, Raise e) => (w, Raise e)
  | (w, Return r) =>
      match run_init r sg n w with
      | (w, Raise e) => (w, Raise e)
      | (w, Return _) => (w, Return r)
      end
  end.

(** ** The message templater *)

(** [s.startswith(p)], returning what follows [p] in [s]. *)
Fixpoint strip_prefix (p s : string) : option string :=
  match p with
  | EmptyString => Some s
  | String a p' =>
      match s with
      | EmptyString => None
      | String b s' => if Ascii.eqb a b then strip_prefix p' s' else None
      end
  end.

(** [s.replace(old, new)] for a non-empty [old]: a left-to-right scan
    replacing the non-overlapping occurrences of [old].  Each step
    consumes at least one character of [s]; [fuel] bounds the steps. *)
Fixpoint replace_fuel (fuel : nat) (old new s : string) : string :=
  match fuel with
  | O => s
  | S fuel =>
      match strip_prefix old s with
      | Some rest => new +:+ replace_fuel fuel old new rest
      | None =>
          match s with
          | EmptyString => EmptyString
          | String c s' => String c (replace_fuel fuel old new s')
          end
      end
  end.

Definition str_replace (old new s : string) : string :=
  replace_fuel (S (String.length s)) old new s.

(** A dictionary whose iteration order matters: the items in insertion
    order, looked up by first match. *)
Definition Items : Type := list (string * Term).

Fixpoint items_get (pm : Items) (a : string) : option Term :=
  match pm with
  | [] => None
  | (k, v) :: pm => if String.eqb k a then Some v else items_get pm a
  end.

(** ["{$" + str(a) + "}"] *)
Definition replace_me (a : string) : string := "{$" +:+ a +:+ "}".

(** [str(v)] after [if isinstance(v, rdflib.Literal): v = v.value] *)
Definition bound_str (v : Term) : string :=
  match v with
  | Literal _ val => py_str val
  | _ => term_str v
  end.

(** The inner loop of [make_messages] on one template. *)
Definition make_message (params_map : Items) (m : string) : string :=
  fold_left (fun this_m '(a, v) => str_replace (replace_me a) (bound_str v) this_m)
            params_map m.

(** [rdflib.Literal(s)] for a Python string [s]. *)
Definition string_literal (s : string) : Term := Literal s (PyStr s).

(** [m.value[:]] for a message literal; [__init__] admits only literals
    whose value is a string, and for those this is that string. *)
Definition template_of (m : Term) : string :=
  match m with
  | Literal _ val => py_str val
  | _ => term_str m
  end.

(** [SPARQLConstraintComponentValidator.make_messages] *)
Definition make_messages (self : Validator) (params_map : option Items)
  : list Term :=
  let messages := default [] (messages self) in
  match params_map with
  | None => messages
  | Some params_map =>
      map (fun m => string_literal (make_message params_map (template_of m)))
          messages
  end.

(** ** Query helper, target graph and violation signals *)

(** The interface of the query helper used here.  [bind_messages]
    stands for the call [bind_messages(args)] followed by the read of
    [bound_messages]. *)
Record QueryHelper := {
  param_bind_map : gmap string Term;
  pre_bind_variables : Term -> Term -> gset string -> gmap string Term * string;
  apply_prefixes : string -> string;
  bind_messages : gmap string Term -> list Term
}.

(** What reading [result.askAnswer] gives: a boolean; [None], which is
    what an rdflib [Result] holds for a query that is not an ASK query;
    or the [KeyError] or [AttributeError] the validator catches. *)
Inductive AskOutcome :=
| AskAnswer (answer : bool)
| AskAnswerNone
| NoAskAnswer.

(** The [failure] entry of a result row: Python's [True] or a term. *)
Inductive FailureValue :=
| FailureTrue
| FailureTerm (t : Term).

(** A result row.  A field is [None] when [r[name]] raises [KeyError]
    or yields [None]. *)
Record Row := {
  row_path : option Term;
  row_value : option Term;
  row_this : option Term;
  row_failure : option FailureValue
}.

Record QueryResult := {
  askAnswer : AskOutcome;
  rows : list Row
}.

(** [target_graph.query(sparql_text, initBindings=init_binds)] *)
Definition TargetGraph : Type := string -> gmap string Term -> QueryResult.

(** The second component of a violation: a boolean, or the tuple
    [(t, p, v2)]. *)
Inductive Signal :=
| SBool (b : bool)
| STuple (t p v : option Term).

Definition Violation : Type := Term * Signal.

#[global] Instance Signal_eq_dec : EqDecision Signal.
Proof. solve_decision. Defined.

(** [violations.add(x)] on a set kept as a duplicate-free list. *)
Definition set_add (x : Violation) (s : list Violation) : list Violation :=
  if decide (x ∈ s) then s else s ++ [x].

(** The bindings and query text both validators compute for a value
    node: the [if query_helper is None: ... else: ...] block. *)
Definition prepare_query (self : Validator) (focus v : Term)
    (query_helper : option QueryHelper) (bind_vals : gmap string Term)
  : gmap string Term * string :=
  match query_helper with
  | None => (∅, default "" (query_text self))
  | Some query_helper =>
      let '(init_binds, sparql_text) :=
        pre_bind_variables query_helper focus v (dom bind_vals) in
      let sparql_text := apply_prefixes query_helper sparql_text in
      (* init_binds.update(bind_vals) *)
      (bind_vals ∪ init_binds, sparql_text)
  end.

(** [bind_vals] of both validators: [param_bind_vals.copy()] updated
    with [new_bind_vals or {}]. *)
Definition bind_vals_of (query_helper : option QueryHelper)
    (new_bind_vals : option (gmap string Term)) : gmap string Term :=
  let param_bind_vals :=
    match query_helper with
    | Some query_helper => param_bind_map query_helper
    | None => ∅
    end in
  let new_bind_vals := default ∅ new_bind_vals in
  new_bind_vals ∪ param_bind_vals.

(** ** [AskConstraintValidator.validate] *)

Fixpoint ask_loop (self : Validator) (focus : Term) (target_graph : TargetGraph)
    (query_helper : option QueryHelper) (bind_vals : gmap string Term)
    (value_nodes : list Term) (violations : list Violation)
  : Result (list Violation) :=
  match value_nodes with
  | [] => Return violations
  | v :: value_nodes =>
      let '(init_binds, sparql_text) :=
        prepare_query self focus v query_helper bind_vals in
      match askAnswer (target_graph sparql_text init_binds) with
      | NoAskAnswer =>
          Raise (ValidationFailure "ASK Query did not return an askAnswer.")
      | AskAnswer answer =>
          (* if answer is False: violations.add((v, False)) *)
          ask_loop self focus target_graph query_helper bind_vals value_nodes
            (if answer then violations else set_add (v, SBool false) violations)
      | AskAnswerNone =>
          ask_loop self focus target_graph query_helper bind_vals value_nodes
            violations
      end
  end.

Definition AskConstraintValidator_validate (self : Validator) (focus : Term)
    (value_nodes : list Term) (target_graph : TargetGraph)
    (query_helper : option QueryHelper)
    (new_bind_vals : option (gmap string Term))
  : Result (list Violation) :=
  ask_loop self focus target_graph query_helper
    (bind_vals_of query_helper new_bind_vals) value_nodes [].

(** ** [SelectConstraintValidator.validate] *)

(** [f is True or (isinstance(f, rdflib.Literal) and f.value)] *)
Definition failure_flagged (f : FailureValue) : bool :=
  match f with
  | FailureTrue => true
  | FailureTerm (Literal _ val) => py_bool val
  | FailureTerm _ => false
  end.

(** The body of [for r in results]. *)
Definition select_row (v : Term) (r : Row) (violations : list Violation)
  : list Violation :=
  let p := row_path r in
  let v2 := row_value r in
  let t := row_this r in
  if opt_truthy p || opt_truthy v2 || opt_truthy t
  then set_add (v, STuple t p v2) violations
  else
    match row_failure r with
    | Some f =>
        if failure_flagged f then set_add (v, SBool true) violations
        else violations
    | None => violations
    end.

Fixpoint select_loop (self : Validator) (focus : Term)
    (target_graph : TargetGraph)
    (query_helper : option QueryHelper) (bind_vals : gmap string Term)
    (value_nodes : list Term) (violations : list Violation)
  : list Violation :=
  match value_nodes with
  | [] => violations
  | v :: value_nodes =>
      let '(init_binds, sparql_text) :=
        prepare_query self focus v query_helper bind_vals in
      let results := rows (target_graph sparql_text init_binds) in
      select_loop self focus target_graph query_helper bind_vals value_nodes
        (fold_left (fun acc r => select_row v r acc) results violations)
  end.

Definition SelectConstraintValidator_validate (self : Validator) (focus : Term)
    (value_nodes : list Term) (target_graph : TargetGraph)
    (query_helper : option QueryHelper)
    (new_bind_vals : option (gmap string Term))
  : Result (list Violation) :=
  Return (select_loop self focus target_graph query_helper
            (bind_vals_of query_helper new_bind_vals) value_nodes []).

(** [self.validator.validate(...)], dispatched on the instance's class. *)
Definition validate (self : Validator) :=
  match cls self with
  | AskConstraintValidator => AskConstraintValidator_validate self
  | SelectConstraintValidator => SelectConstraintValidator_validate self
  end.

(** ** [BoundShapeValidatorComponent] *)

(** What [evaluate] reads of the shape. *)
Record Shape := {
  is_property_shape : bool;
  path : Term
}.

(** What [evaluate] reads of the constraint: its node.  The [messages]
    property of [SPARQLConstraintComponent] returns a new empty list on
    each read. *)
Record SPARQLConstraintComponent := {
  constraint_node : Term
}.

Definition SPARQLConstraintComponent_messages
    (c : SPARQLConstraintComponent) : list Term := [].

Record BoundShapeValidatorComponent := {
  constraint : SPARQLConstraintComponent;
  shape : Shape;
  validator : Validator;
  query_helper : QueryHelper
}.

(** Modelled from the spec: [ConstraintComponent.make_v_result], defined
    in [pyshacl.constraints.constraint_component], which is not among the
    sources.  A report records the arguments of the call: the focus node, [value_node], [result_path],
    [constraint_component] and the contents of the [extra_messages] list
    at the time of the call. *)
Record Report := {
  focus_node : Term;
  value_node : option Term;
  result_path : option Term;
  constraint_component : Term;
  extra_messages : list Term
}.

(** The state of the loops of [evaluate].  [kw_extra_messages] is the
    one list object that [rept_kwargs['extra_messages']] refers to;
    [rept_kwargs.copy()] copies the dictionary but not that list, so
    every [new_kwargs['extra_messages']] is the same object. *)
Record EvalState := {
  reports : list Report;
  non_conformant : bool;
  kw_extra_messages : list Term
}.

(** [new_kwargs = rept_kwargs.copy()],
    [new_kwargs['extra_messages'].extend(msgs)],
    [rept = self.make_v_result(target_graph, focus, value_node=...,
    result_path=..., **new_kwargs)] and [reports.append(rept)]. *)
Definition extend_and_report (self : BoundShapeValidatorComponent)
    (msgs : list Term) (focus : Term) (value_node result_path : option Term)
    (st : EvalState) : EvalState :=
  let shared := kw_extra_messages st ++ msgs in
  let rept :=
    {| focus_node := focus; value_node := value_node;
       result_path := result_path;
       constraint_component := constraint_node (constraint self);
       extra_messages := shared |} in
  {| reports := reports st ++ [rept]; non_conformant := true;
     kw_extra_messages := shared |}.

(** [msg_args_map] for focus [f] and value [val]. *)
Definition msg_args_map_of (self : BoundShapeValidatorComponent)
    (f val : Term) : gmap string Term :=
  let msg_args_map :=
    <["value" := val]> (<["this" := f]> (param_bind_map (query_helper self))) in
  if is_property_shape (shape self)
  then <["path" := path (shape self)]> msg_args_map
  else msg_args_map.

(** [m[k] = x] when [o] is a term [x]; [m] unchanged when it is [None]. *)
Definition set_if_some (k : string) (o : option Term) (m : gmap string Term)
  : gmap string Term :=
  match o with
  | Some x => <[k := x]> m
  | None => m
  end.

(** The body of [for val, vio in violations]. *)
Definition evaluate_violation (self : BoundShapeValidatorComponent)
    (f : Term) (violation : Violation) (st : EvalState) : Result EvalState :=
  let '(val, vio) := violation in
  let msg_args_map := msg_args_map_of self f val in
  let bound_messages := bind_messages (query_helper self) msg_args_map in
  let report_val :=
    if is_property_shape (shape self) then None else Some val in
  match vio with
  | SBool false =>
      Return (extend_and_report self bound_messages f report_val None st)
  | SBool true =>
      Raise (ValidationFailure
               "Validation Failure generated by SPARQLConstraint.")
  | STuple t p v =>
      let new_msg_args_map := set_if_some "value" v msg_args_map in
      let v := match v with None => report_val | Some _ => v end in
      let new_msg_args_map := set_if_some "path" p new_msg_args_map in
      let new_msg_args_map := set_if_some "this" t new_msg_args_map in
      let new_bound_msgs :=
        bind_messages (query_helper self) new_msg_args_map in
      (* [t or f] *)
      let focus :=
        match t with
        | Some t' => if term_truthy t' then t' else f
        | None => f
        end in
      Return (extend_and_report self new_bound_msgs focus v p st)
  end.

Fixpoint evaluate_violations (self : BoundShapeValidatorComponent)
    (f : Term) (violations : list Violation) (st : EvalState)
  : Result EvalState :=
  match violations with
  | [] => Return st
  | violation :: violations =>
      match evaluate_violation self f violation st with
      | Raise e => Raise e
      | Return st => evaluate_violations self f violations st
      end
  end.

(** The loop [for f, value_nodes in focus_value_nodes.items()]. *)
Fixpoint evaluate_loop (self : BoundShapeValidatorComponent)
    (target_graph : TargetGraph)
    (focus_value_nodes : list (Term * list Term)) (st : EvalState)
  : Result EvalState :=
  match focus_value_nodes with
  | [] => Return st
  | (f, value_nodes) :: focus_value_nodes =>
      match validate (validator self) f value_nodes target_graph
              (Some (query_helper self)) None with
      | Raise e => Raise e
      | Return violations =>
          match evaluate_violations self f violations st with
          | Raise e => Raise e
          | Return st => evaluate_loop self target_graph focus_value_nodes st
          end
      end
  end.

(** [BoundShapeValidatorComponent.evaluate] *)
Definition evaluate (self : BoundShapeValidatorComponent)
    (target_graph : TargetGraph)
    (focus_value_nodes : list (Term * list Term))
  : Result (bool * list Report) :=
  let st :=
    {| reports := []; non_conformant := false;
       kw_extra_messages :=
         SPARQLConstraintComponent_messages (constraint self) |} in
  match evaluate_loop self target_graph focus_value_nodes st with
  | Raise e => Raise e
  | Return st => Return (negb (non_conformant st), reports st)
  end.

(** The order of the four tests, written as one conditional. *)
Definition kind_by_order (sg : ShapesGraph) (n : Term)
  : option ValidatorClass :=
  if bool_decide (SH_SPARQLSelectValidator ∈ objects sg n RDF_type)
  then Some SelectConstraintValidator
  else if bool_decide (SH_SPARQLAskValidator ∈ objects sg n RDF_type)
  then Some AskConstraintValidator
  else if bool_decide (objects sg n SH_select <> [])
  then Some SelectConstraintValidator
  else if bool_decide (objects sg n SH_ask <> [])
  then Some AskConstraintValidator
  else None.

(** ** Concrete inputs *)

Definition empty_world : World := {| heap := []; validator_cache := ∅ |}.

Definition ex_validator : Term := URIRef "http://ex/v".

(** A validator node declared as an ASK validator that carries both a
    [sh:select] and a [sh:ask] value, and a second resource whose
    blank-node identifier has the same string as an IRI in use. *)
Definition ex_shapes : ShapesGraph :=
  {| graph_id := 1;
     triples :=
       [ (ex_validator, RDF_type, SH_SPARQLAskValidator);
         (ex_validator, SH_select, string_literal "SELECT $this WHERE { $this ?p ?o }");
         (ex_validator, SH_ask, string_literal "ASK { $this a <http://ex/Foo> }");
         (ex_validator, SH_message, string_literal "{$this} is not a Foo");
         (URIRef "b0", SH_ask, string_literal "ASK { $this a <http://ex/A> }");
         (BNode "b0", SH_ask, string_literal "ASK { $this a <http://ex/B> }") ] |}.

(** The same string as [ex_validator], written as a literal. *)
Definition ex_validator_literal : Term := string_literal "http://ex/v".

(** The outcome of the query [AskConstraintValidator.validate] runs for
    value node [v]. *)
Definition ask_outcome (self : Validator) (focus : Term)
    (target_graph : TargetGraph) (query_helper : option QueryHelper)
    (bind_vals : gmap string Term) (v : Term) : AskOutcome :=
  let '(init_binds, sparql_text) :=
    prepare_query self focus v query_helper bind_vals in
  askAnswer (target_graph sparql_text init_binds).

(** A helper and target graph for the examples: no parameters, no
    pre-bound variables, the query text unchanged. *)
Definition ex_helper : QueryHelper :=
  {| param_bind_map := ∅;
     pre_bind_variables := fun _ _ _ => (∅, "SELECT ?value WHERE { }");
     apply_prefixes := fun s => s;
     bind_messages := fun _ => [] |}.

(** A row that binds only [value], to the integer literal [0]. *)
Definition ex_zero_row : Row :=
  {| row_path := None; row_value := Some (Literal "0" (PyInt 0));
     row_this := None; row_failure := None |}.

Definition ex_zero_graph : TargetGraph :=
  fun _ _ => {| askAnswer := NoAskAnswer; rows := [ex_zero_row] |}.

Definition ex_select_validator : Validator :=
  {| cls := SelectConstraintValidator; shacl_graph := None;
     node := Some ex_validator; messages := Some [];
     initialised := true; query_text := Some "SELECT ?value WHERE { }" |}.

(** The signals [evaluate] receives for one entry of [focus_value_nodes]. *)
Definition signals_of (self : BoundShapeValidatorComponent)
    (target_graph : TargetGraph) (f : Term) (value_nodes : list Term)
  : Result (list Violation) :=
  validate (validator self) f value_nodes target_graph
    (Some (query_helper self)) None.

(** Whether a set of signals holds one with the boolean [True]. *)
Definition has_failure (violations : list Violation) : bool :=
  existsb (fun '(_, vio) => match vio with SBool true => true | _ => false end)
          violations.

(** An entry whose [validate] call returns, with no [True] signal. *)
Definition clean_entry (self : BoundShapeValidatorComponent)
    (target_graph : TargetGraph) (entry : Term * list Term) : Prop :=
  exists violations,
    signals_of self target_graph entry.1 entry.2 = Return violations
    /\ has_failure violations = false.

Definition generic_failure : Exception :=
  ValidationFailure "Validation Failure generated by SPARQLConstraint.".

(** All violations of a call of [evaluate], in the order it meets them. *)
Definition violations_of (self : BoundShapeValidatorComponent)
    (target_graph : TargetGraph)
    (focus_value_nodes : list (Term * list Term)) : list Violation :=
  flat_map (fun '(f, value_nodes) =>
              match signals_of self target_graph f value_nodes with
              | Return violations => violations
              | Raise _ => []
              end)
           focus_value_nodes.

(** The value node a report is to carry for a violation: the explicit
    value of a tuple signal; without one, nothing on a property shape and
    the value node of the violation on a node shape.  No report stands
    for a [True] signal. *)
Definition value_node_as_claimed (self : BoundShapeValidatorComponent)
    (violation : Violation) (rept : Report) : Prop :=
  let '(val, vio) := violation in
  match vio with
  | STuple _ _ (Some v) => value_node rept = Some v
  | SBool false | STuple _ _ None =>
      value_node rept =
        if is_property_shape (shape self) then None else Some val
  | SBool true => False
  end.

Definition ex_a : Term := URIRef "http://ex/a".
Definition ex_b : Term := URIRef "http://ex/b".

Definition ex_ask_validator : Validator :=
  {| cls := AskConstraintValidator; shacl_graph := Some ex_shapes;
     node := Some ex_validator;
     messages := Some [string_literal "{$this} is not a Foo"];
     initialised := true;
     query_text := Some "ASK { $this a <http://ex/Foo> }" |}.

(** A helper that pre-binds [this] and binds the validator's messages
    with [make_messages]. *)
Definition ex_msg_helper : QueryHelper :=
  {| param_bind_map := ∅;
     pre_bind_variables :=
       fun f _ _ => ({["this" := f]}, "ASK { $this a <http://ex/Foo> }");
     apply_prefixes := fun s => s;
     bind_messages :=
       fun args => make_messages ex_ask_validator (Some (map_to_list args)) |}.

Definition ex_bound : BoundShapeValidatorComponent :=
  {| constraint := {| constraint_node := URIRef "http://ex/Component" |};
     shape := {| is_property_shape := false; path := URIRef "http://ex/p" |};
     validator := ex_ask_validator;
     query_helper := ex_msg_helper |}.

(** A data graph in which no focus node is a [Foo]. *)
Definition ex_no_foo : TargetGraph :=
  fun _ _ => {| askAnswer := AskAnswer false; rows := [] |}.

(** A data graph whose rows flag a failure without detail. *)
Definition ex_failure_row : Row :=
  {| row_path := None; row_value := None; row_this := None;
     row_failure := Some FailureTrue |}.

Definition ex_failing : TargetGraph :=
  fun _ _ => {| askAnswer := NoAskAnswer; rows := [ex_failure_row] |}.

Definition ex_select_bound : BoundShapeValidatorComponent :=
  {| constraint := {| constraint_node := URIRef "http://ex/Component" |};
     shape := {| is_property_shape := true; path := URIRef "http://ex/p" |};
     validator := ex_select_validator;
     query_helper := ex_helper |}.

(** The reports of a call of [evaluate] that returns. *)
Definition evaluate_reports (self : BoundShapeValidatorComponent)
    (target_graph : TargetGraph)
    (focus_value_nodes : list (Term * list Term)) : list Report :=
  match evaluate self target_graph focus_value_nodes with
  | Return (_, rs) => rs
  | Raise _ => []
  end.

(** ** Templates as text and placeholders *)

(** A template read as the spec reads it: literal text and placeholders
    [{$name}]. *)
Inductive Piece :=
| Text (s : string)
| Hole (name : string).

Definition render_piece (p : Piece) : string :=
  match p with
  | Text s => s
  | Hole a => replace_me a
  end.

(** The template string the pieces stand for. *)
Definition render (ps : list Piece) : string :=
  fold_right (fun p acc => render_piece p +:+ acc) "" ps.

(** What the spec asks of a piece: text is kept, the placeholder of a
    name in the map becomes the string form of its value. *)
Definition fill (params_map : Items) (p : Piece) : string :=
  match p with
  | Text s => s
  | Hole a =>
      match items_get params_map a with
      | Some v => bound_str v
      | None => replace_me a
      end
  end.

(** The substitution of the spec: every placeholder replaced at once,
    all other text kept. *)
Definition substitute_placeholders (params_map : Items) (ps : list Piece)
  : string :=
  fold_right (fun p acc => fill params_map p +:+ acc) "" ps.

Fixpoint has_char (c : ascii) (s : string) : bool :=
  match s with
  | EmptyString => false
  | String a s => Ascii.eqb c a || has_char c s
  end.

Definition no_open (s : string) : bool := negb (has_char "{" s).
Definition no_close (s : string) : bool := negb (has_char "}" s).
Definition brace_free (s : string) : bool := no_open s && no_close s.

(** Text without [{], placeholder names without braces. *)
Definition plain_template (ps : list Piece) : bool :=
  forallb (fun p => match p with
                    | Text s => no_open s
                    | Hole a => brace_free a
                    end) ps.

(** Parameter names without braces, bound to values whose string form
    has no [{]. *)
Definition plain_params (params_map : Items) : bool :=
  forallb (fun '(a, v) => brace_free a && no_open (bound_str v)) params_map.

(** One step of the templater seen on pieces. *)
Definition fill_one (k : string) (new : string) (p : Piece) : Piece :=
  match p with
  | Text s => Text s
  | Hole a => if String.eqb k a then Text new else Hole a
  end.

Definition validator_with_messages (ms : list Term) : Validator :=
  {| cls := AskConstraintValidator; shacl_graph := None; node := None;
     messages := Some ms; initialised := true; query_text := None |}.

(** A parameter whose value is itself the text of a later placeholder. *)
Definition ex_chained : Items :=
  [("a", string_literal "{$b}"); ("b", string_literal "X")].

(** ** Further definitions: loaded validators *)

(** The query predicate a validator class reads in its [__init__]. *)
Definition query_predicate (c : ValidatorClass) : Term :=
  match c with
  | SelectConstraintValidator => SH_select
  | AskConstraintValidator => SH_ask
  end.

(** The [ConstraintLoadError] of a subclass [__init__] when the query
    predicate does not have exactly one value. *)
Definition query_count_error (c : ValidatorClass) : Exception :=
  match c with
  | SelectConstraintValidator =>
      ConstraintLoadError
        "SelectValidator must have exactly one value for sh:select."
        shacl_link
  | AskConstraintValidator =>
      ConstraintLoadError
        "AskValidator must have exactly one value for sh:ask." shacl_link
  end.

(** The [ConstraintLoadError] of a subclass [__init__] when the one
    value is not a literal with a string value. *)
Definition query_type_error (c : ValidatorClass) : Exception :=
  match c with
  | SelectConstraintValidator =>
      ConstraintLoadError
        "SelectValidator sh:select must be an RDF Literal of type xsd:string."
        shacl_link
  | AskConstraintValidator =>
      ConstraintLoadError
        "AskValidator sh:ask must be an RDF Literal of type xsd:string."
        shacl_link
  end.

Definition message_type_error : Exception :=
  ConstraintLoadError
    "Validator sh:message must be an RDF Literal of type xsd:string."
    shacl_link.

(** An instance on which [__init__] has run to its end. *)
Definition loaded (o : Validator) : Prop :=
  initialised o = true
  /\ is_Some (query_text o)
  /\ is_Some (node o)
  /\ exists ms, messages o = Some ms /\ forallb is_string_literal ms = true.

(** Every cache entry refers to an allocated, loaded instance. *)
Definition cache_loaded (w : World) : Prop :=
  forall k r,
    validator_cache w !! k = Some r ->
    exists o, heap w !! r = Some o /\ loaded o.

(** The instance a successful first resolution creates. *)
Definition fresh_validator (c : ValidatorClass) (sg : ShapesGraph)
    (n : Term) (q : string) : Validator :=
  {| cls := c; shacl_graph := Some sg; node := Some n;
     messages := Some (py_set (objects sg n SH_message));
     initialised := true; query_text := Some q |}.

(** A node whose only declaration is a [sh:select] value that is an IRI,
    and one whose message is a number. *)
Definition ex_bad_shapes : ShapesGraph :=
  {| graph_id := 2;
     triples :=
       [ (URIRef "http://ex/s", RDF_type, SH_SPARQLSelectValidator);
         (URIRef "http://ex/s", SH_ask, string_literal "ASK { }");
         (URIRef "http://ex/m", SH_ask, string_literal "ASK { }");
         (URIRef "http://ex/m", SH_message, Literal "3" (PyInt 3));
         (URIRef "http://ex/t", SH_select, URIRef "http://ex/query") ] |}.

(** ** Further definitions: signals and reports *)

(** The rows [SelectConstraintValidator.validate] iterates for value
    node [v]. *)
Definition select_rows (self : Validator) (focus : Term)
    (target_graph : TargetGraph) (query_helper : option QueryHelper)
    (bind_vals : gmap string Term) (v : Term) : list Row :=
  let '(init_binds, sparql_text) :=
    prepare_query self focus v query_helper bind_vals in
  rows (target_graph sparql_text init_binds).

(** The signal a result row stands for, if any. *)
Definition row_signal (r : Row) : option Signal :=
  if opt_truthy (row_path r) || opt_truthy (row_value r)
     || opt_truthy (row_this r)
  then Some (STuple (row_this r) (row_path r) (row_value r))
  else
    match row_failure r with
    | Some f => if failure_flagged f then Some (SBool true) else None
    | None => None
    end.

(** The violations of a call of [evaluate] with their focus nodes. *)
Definition focused_violations_of (self : BoundShapeValidatorComponent)
    (target_graph : TargetGraph)
    (focus_value_nodes : list (Term * list Term))
  : list (Term * Violation) :=
  flat_map (fun '(f, value_nodes) =>
              match signals_of self target_graph f value_nodes with
              | Return violations => map (fun x => (f, x)) violations
              | Raise _ => []
              end)
           focus_value_nodes.

(** The messages [evaluate] binds for a violation at focus [f]. *)
Definition violation_messages (self : BoundShapeValidatorComponent)
    (fv : Term * Violation) : list Term :=
  let '(f, (val, vio)) := fv in
  let msg_args_map := msg_args_map_of self f val in
  match vio with
  | SBool _ => bind_messages (query_helper self) msg_args_map
  | STuple t p v =>
      bind_messages (query_helper self)
        (set_if_some "this" t
           (set_if_some "path" p (set_if_some "value" v msg_args_map)))
  end.

(** The focus node and result path [evaluate] reports for a violation. *)
Definition violation_focus (fv : Term * Violation) : Term :=
  let '(f, (_, vio)) := fv in
  match vio with
  | STuple (Some t) _ _ => if term_truthy t then t else f
  | _ => f
  end.

Definition violation_path (fv : Term * Violation) : option Term :=
  match fv.2.2 with
  | STuple _ p _ => p
  | SBool _ => None
  end.

(** The running lists: each is its predecessor followed by the next
    block, starting from [acc]. *)
Fixpoint running_concat (acc : list Term) (blocks : list (list Term))
  : list (list Term) :=
  match blocks with
  | [] => []
  | block :: blocks => (acc ++ block) :: running_concat (acc ++ block) blocks
  end.

(** A SELECT validator, a helper and a data graph with one row that
    overrides the focus with an empty IRI. *)
Definition ex_rows (rs : list Row) : TargetGraph :=
  fun _ _ => {| askAnswer := NoAskAnswer; rows := rs |}.

Definition ex_value_row : Row :=
  {| row_path := Some (URIRef "http://ex/p"); row_value := Some ex_b;
     row_this := None; row_failure := None |}.

(** What [evaluate] puts in a report besides value node and messages. *)
Definition report_header_as_read (self : BoundShapeValidatorComponent)
    (fv : Term * Violation) (rept : Report) : Prop :=
  focus_node rept = violation_focus fv
  /\ result_path rept = violation_path fv
  /\ constraint_component rept = constraint_node (constraint self).

(** A row that names an empty IRI as [this] next to a value. *)
Definition ex_empty_this_row : Row :=
  {| row_path := None; row_value := Some ex_b;
     row_this := Some (URIRef ""); row_failure := None |}.

(** ** Further definitions: choosing a validator for a shape *)

(** What [make_validator_for_shape] reads of the component it is called
    on: the shapes graph [self.sg], the declared parameters and the three
    pools of validator nodes, each in iteration order. *)
Record ComponentDeclaration := {
  declared : SPARQLConstraintComponent;
  sg : ShapesGraph;
  parameters : list Term;
  validators : list Term;
  node_validators : list Term;
  property_validators : list Term
}.

(** The class returned by [get_query_helper_cls()], applied to the
    shape, [validator.node], [validator.query_text], the parameters and
    [validator.messages], and followed by [collect_prefixes()]. *)
Definition HelperFactory : Type :=
  Shape -> option Term -> option string -> list Term -> option (list Term)
  -> QueryHelper.

(** [BoundShapeValidatorComponent.__init__] *)
Definition BoundShapeValidatorComponent_init (SPARQLQueryHelper : HelperFactory)
    (c : ComponentDeclaration) (s : Shape) (v : Validator)
  : BoundShapeValidatorComponent :=
  {| constraint := declared c; shape := s; validator := v;
     query_helper :=
       SPARQLQueryHelper s (node v) (query_text v) (parameters c)
         (messages v) |}.

Definition must_be_ask_error : Exception :=
  ConstraintLoadError
    "Validator not for NodeShape or a PropertyShape must be of type SPARQLAskValidator."
    shacl_link.

Definition must_be_select_error : Exception :=
  ConstraintLoadError
    "Validator for a NodeShape or a PropertyShape must be of type SPARQLSelectValidator."
    shacl_link.

Definition cannot_select_error : Exception :=
  ConstraintLoadError
    "Cannot select a validator to use, according to the rules."
    "https://www.w3.org/TR/shacl/#constraint-components-validators".

(** [SPARQLConstraintComponentValidator.apply_to_shape_via_constraint]
    with its two keyword arguments. *)
Definition apply_to_shape_via_constraint (SPARQLQueryHelper : HelperFactory)
    (self : Validator) (c : ComponentDeclaration) (s : Shape)
    (must_be_ask_val must_be_select_val : bool)
  : Result BoundShapeValidatorComponent :=
  if must_be_ask_val
     && negb (bool_decide (cls self = AskConstraintValidator))
  then Raise must_be_ask_error
  else if must_be_select_val
          && negb (bool_decide (cls self = SelectConstraintValidator))
  then Raise must_be_select_error
  else Return (BoundShapeValidatorComponent_init SPARQLQueryHelper c s self).

(** The [if]/[elif] chain of [make_validator_for_shape]: the node taken
    with [next(iter(...))] and the flags [must_be_ask_val] and
    [must_be_select_val]. *)
Definition choose_validator_node (self : ComponentDeclaration) (s : Shape)
  : option (Term * bool * bool) :=
  match is_property_shape s, property_validators self,
        node_validators self, validators self with
  | true, validator_node :: _, _, _ => Some (validator_node, false, true)
  | false, _, validator_node :: _, _ => Some (validator_node, false, true)
  | _, _, _, validator_node :: _ => Some (validator_node, true, false)
  | _, _, _, _ => None
  end.

(** [SPARQLConstraintComponent.make_validator_for_shape].  The reference
    that [resolve] returns is read from the object store. *)
Definition make_validator_for_shape (SPARQLQueryHelper : HelperFactory)
    (self : ComponentDeclaration) (s : Shape) (w : World)
  : World * Result BoundShapeValidatorComponent :=
  match choose_validator_node self s with
  | None => (w, Raise cannot_select_error)
  | Some (validator_node, must_be_ask_val, must_be_select_val) =>
      match resolve (sg self) validator_node w with
      | (w, Raise e) => (w, Raise e)
      | (w, Return r) =>
          let validator :=
            default (object_new AskConstraintValidator) (heap w !! r) in
          (w, apply_to_shape_via_constraint SPARQLQueryHelper validator
                self s must_be_ask_val must_be_select_val)
      end
  end.

(** The pool that belongs to the kind of the shape. *)
Definition own_pool (self : ComponentDeclaration) (s : Shape) : list Term :=
  if is_property_shape s then property_validators self
  else node_validators self.

(** The node [make_validator_for_shape] resolves, when there is one. *)
Definition chosen_node (self : ComponentDeclaration) (s : Shape)
  : option Term :=
  match own_pool self s with
  | n :: _ => Some n
  | [] => head (validators self)
  end.

(** The class the chosen validator must have. *)
Definition required_class (self : ComponentDeclaration) (s : Shape)
  : ValidatorClass :=
  match own_pool self s with
  | _ :: _ => SelectConstraintValidator
  | [] => AskConstraintValidator
  end.

Definition ex_factory : HelperFactory := fun _ _ _ _ _ => ex_helper.

(** A component whose only validator is the ASK validator [ex_validator],
    once declared as generic validator and once as node validator. *)
Definition ex_component (as_node_validator : bool) : ComponentDeclaration :=
  {| declared := {| constraint_node := URIRef "http://ex/Component" |};
     sg := ex_shapes; parameters := [];
     validators := if as_node_validator then [] else [ex_validator];
     node_validators := if as_node_validator then [ex_validator] else [];
     property_validators := [] |}.

Definition ex_node_shape : Shape :=
  {| is_property_shape := false; path := URIRef "http://ex/p" |}.

(** The answer of the ASK query that [evaluate] has run for focus [f]
    and value node [v]. *)
Definition bound_ask_outcome (self : BoundShapeValidatorComponent)
    (target_graph : TargetGraph) (f v : Term) : AskOutcome :=
  ask_outcome (validator self) f target_graph (Some (query_helper self))
    (bind_vals_of (Some (query_helper self)) None) v.

Definition no_ask_answer : Exception :=
  ValidationFailure "ASK Query did not return an askAnswer.".

(** A data graph in which only [ex_a] is a [Foo]: the query is answered
    by the pre-bound [this]. *)
Definition ex_only_a : TargetGraph :=
  fun _ init_binds =>
    {| askAnswer :=
         AskAnswer (bool_decide (init_binds !! "this" = Some ex_a));
       rows := [] |}.

(** A data graph whose query results carry no boolean: [askAnswer] is
    [None], as for a [sh:ask] text that is a SELECT query. *)
Definition ex_none_answer : TargetGraph :=
  fun _ _ => {| askAnswer := AskAnswerNone; rows := [] |}.

(** * Properties *)

(** ** Resolution: the validator kind and the cache *)

Lemma py_set_elem (x : Term) (xs : list Term) : x ∈ py_set xs <-> x ∈ xs.
Proof. unfold py_set. apply elem_of_remove_dups. Qed.

Lemma py_set_nonempty (xs : list Term) :
  (0 < length (py_set xs))%nat <-> xs <> [].
Proof.
  unfold py_set. destruct xs as [|x xs].
  - split; [intros H; simpl in H; lia | congruence].
  - split; [congruence | intros _].
    assert (H : x ∈ remove_dups (x :: xs))
      by (apply elem_of_remove_dups; left).
    revert H. generalize (remove_dups (x :: xs)).
    intros [|y ys] H; [inversion H | simpl; lia].
Qed.

Lemma base_init_cls sg n self :
  cls (SPARQLConstraintComponentValidator_init sg n self).1 = cls self.
Proof.
  unfold SPARQLConstraintComponentValidator_init.
  destruct (initialised self); [done|].
  destruct (forallb _ _); done.
Qed.

Lemma load_query_text_cls sg n p m1 m2 self :
  cls (load_query_text sg n p m1 m2 self).1 = cls self.
Proof.
  unfold load_query_text.
  destruct (py_set _) as [|[?|?|? []] [|? ?]]; done.
Qed.

Lemma init_of_cls c sg n self : cls (init_of c sg n self).1 = cls self.
Proof.
  destruct c; simpl;
    unfold SelectConstraintValidator_init, AskConstraintValidator_init;
    pose proof (base_init_cls sg n self) as Hb;
    destruct (SPARQLConstraintComponentValidator_init sg n self) as [s [[]|e]];
    simpl in *; try done;
    rewrite load_query_text_cls; done.
Qed.

Lemma run_init_cache r sg n w :
  validator_cache (run_init r sg n w).1 = validator_cache w.
Proof.
  unfold run_init. destruct (heap w !! r); [|done].
  destruct (init_of _ _ _ _); done.
Qed.

Lemma run_init_cls r sg n w :
  cls <$> heap (run_init r sg n w).1 !! r = cls <$> heap w !! r.
Proof.
  unfold run_init. destruct (heap w !! r) as [self|] eqn:Hr.
  - pose proof (init_of_cls (cls self) sg n self) as Hc.
    destruct (init_of _ _ _ _) as [self' res]; simpl in *.
    rewrite list_lookup_insert_eq by (by eapply lookup_lt_Some).
    simpl. by rewrite Hc.
  - simpl. by rewrite Hr.
Qed.

Lemma instantiate_cls c sg n w w' r :
  instantiate c sg n w = (w', Return r) ->
  cls <$> heap w' !! r = Some c.
Proof.
  unfold instantiate, alloc.
  set (w0 := {| heap := heap w ++ [object_new c];
                validator_cache := validator_cache w |}).
  pose proof (run_init_cls (length (heap w)) sg n w0) as Hc.
  destruct (run_init _ _ _ w0) as [w1 [[]|e]]; [|done].
  intros [= <- <-]. simpl in Hc. rewrite Hc.
  rewrite lookup_app_r, Nat.sub_diag; done.
Qed.

Lemma validator_type_order sg n : validator_type sg n = kind_by_order sg n.
Proof.
  unfold validator_type, kind_by_order.
  rewrite !(bool_decide_ext _ _ (py_set_elem _ _)).
  rewrite !(bool_decide_ext _ _ (py_set_nonempty _)).
  destruct (objects sg n RDF_type) as [|ty tys] eqn:Hty;
    repeat case_bool_decide; try done;
    match goal with
    | H : _ ∈ [] |- _ => by apply not_elem_of_nil in H
    end.
Qed.

(** C3: on a cache miss [__new__] picks the validator class by the order
    declared select type, declared ask type, a [sh:select] value, a
    [sh:ask] value; it then constructs an instance of that class, and
    whatever it returns has that class; with none of the four it raises
    a [ConstraintLoadError]. *)
Theorem new_picks_kind_in_order sg n w :
  validator_cache w !! cache_key sg n = None ->
  match kind_by_order sg n with
  | Some c =>
      SPARQLConstraintComponentValidator_new sg n w =
        match instantiate c sg n w with
        | (w', Raise e) => (w', Raise e)
        | (w', Return r) => (cache_store (cache_key sg n) r w', Return r)
        end
      /\ forall w' r,
           SPARQLConstraintComponentValidator_new sg n w = (w', Return r) ->
           cls <$> heap w' !! r = Some c
  | None =>
      exists msg link,
        SPARQLConstraintComponentValidator_new sg n w =
          (w, Raise (ConstraintLoadError msg link))
  end.
Proof.
  intros Hmiss. unfold SPARQLConstraintComponentValidator_new.
  rewrite <- validator_type_order.
  destruct (validator_type sg n) as [c|]; rewrite Hmiss; [|eauto].
  split; [done|]. intros w' r.
  destruct (instantiate c sg n w) as [w1 [r1|e]] eqn:Hi; [|done].
  intros [= <- <-]. simpl. by eapply instantiate_cls.
Qed.

Lemma base_init_initialised sg n self self' :
  SPARQLConstraintComponentValidator_init sg n self = (self', Return tt) ->
  initialised self' = true.
Proof.
  unfold SPARQLConstraintComponentValidator_init.
  destruct (initialised self) eqn:Hi.
  - by intros [= <-].
  - destruct (forallb _ _); [by intros [= <-] | done].
Qed.

Lemma base_init_noop sg n self :
  initialised self = true ->
  SPARQLConstraintComponentValidator_init sg n self = (self, Return tt).
Proof.
  intros Hi. unfold SPARQLConstraintComponentValidator_init. by rewrite Hi.
Qed.

Lemma load_query_text_again sg n p m1 m2 self self' :
  load_query_text sg n p m1 m2 self = (self', Return tt) ->
  initialised self' = initialised self
  /\ load_query_text sg n p m1 m2 self' = (self', Return tt).
Proof.
  unfold load_query_text.
  destruct (py_set _) as [|[?|?|? []] [|? ?]]; try done.
  intros [= <-]. done.
Qed.

Lemma init_of_again c sg n self self' :
  init_of c sg n self = (self', Return tt) ->
  init_of c sg n self' = (self', Return tt).
Proof.
  destruct c; simpl;
    unfold SelectConstraintValidator_init, AskConstraintValidator_init;
    destruct (SPARQLConstraintComponentValidator_init sg n self)
      as [s [[]|e]] eqn:Hb; try done;
    intros Hq; apply base_init_initialised in Hb;
    apply load_query_text_again in Hq as [Hi Hq];
    rewrite base_init_noop by congruence; done.
Qed.

Lemma run_init_again r sg n w w1 :
  run_init r sg n w = (w1, Return tt) ->
  run_init r sg n w1 = (w1, Return tt).
Proof.
  unfold run_init. destruct (heap w !! r) as [self|] eqn:Hr.
  - pose proof (init_of_cls (cls self) sg n self) as Hc.
    destruct (init_of _ _ _ _) as [self' res] eqn:Hinit.
    intros [= <- ->]. simpl in *.
    rewrite list_lookup_insert_eq by (by eapply lookup_lt_Some).
    rewrite Hc. rewrite (init_of_again _ _ _ _ _ Hinit).
    unfold store. simpl. by rewrite list_insert_insert_eq.
  - intros [= <-]. by rewrite Hr.
Qed.

Lemma new_result_cached sg n w w' r :
  SPARQLConstraintComponentValidator_new sg n w = (w', Return r) ->
  validator_cache w' !! cache_key sg n = Some r.
Proof.
  unfold SPARQLConstraintComponentValidator_new.
  destruct (validator_cache w !! cache_key sg n) as [r0|] eqn:Hc.
  - by intros [= <- <-].
  - destruct (validator_type sg n) as [c|]; [|done].
    destruct (instantiate c sg n w) as [w1 [r1|e]]; [|done].
    intros [= <- <-]. simpl. apply lookup_insert_eq.
Qed.

(** C4: resolving the same schema graph and rule node a second time
    returns the same reference, the one the cache holds, and leaves every
    object and the cache as they were; and
    [SPARQLConstraintComponentValidator.__init__] on an instance whose
    [initialised] flag is set returns at once with the instance
    unchanged, whatever its arguments. *)
Theorem resolve_twice_same_instance sg n w w1 r :
  resolve sg n w = (w1, Return r) ->
  resolve sg n w1 = (w1, Return r)
  /\ validator_cache w1 !! cache_key sg n = Some r
  /\ forall sg' n' self,
       initialised self = true ->
       SPARQLConstraintComponentValidator_init sg' n' self
       = (self, Return tt).
Proof.
  unfold resolve at 1.
  destruct (SPARQLConstraintComponentValidator_new sg n w)
    as [w' [r'|e]] eqn:Hnew; [|done].
  destruct (run_init r' sg n w') as [w'' [[]|e]] eqn:Hinit; [|done].
  intros [= <- <-].
  assert (Hcache : validator_cache w'' !! cache_key sg n = Some r').
  { pose proof (run_init_cache r' sg n w') as Hc. rewrite Hinit in Hc.
    simpl in Hc. rewrite Hc. by eapply new_result_cached. }
  split; [|split; [done | intros; by apply base_init_noop]].
  unfold resolve, SPARQLConstraintComponentValidator_new.
  rewrite Hcache. by rewrite (run_init_again _ _ _ _ _ Hinit).
Qed.

Lemma new_picks_kind_in_order_witness :
  validator_cache empty_world !! cache_key ex_shapes ex_validator = None
  /\ kind_by_order ex_shapes ex_validator = Some AskConstraintValidator
  /\ match kind_by_order ex_shapes ex_validator with
     | Some c =>
         SPARQLConstraintComponentValidator_new ex_shapes ex_validator empty_world =
           match instantiate c ex_shapes ex_validator empty_world with
           | (w', Raise e) => (w', Raise e)
           | (w', Return r) =>
               (cache_store (cache_key ex_shapes ex_validator) r w', Return r)
           end
         /\ forall w' r,
              SPARQLConstraintComponentValidator_new ex_shapes ex_validator
                empty_world = (w', Return r) ->
              cls <$> heap w' !! r = Some c
     | None =>
         exists msg link,
           SPARQLConstraintComponentValidator_new ex_shapes ex_validator
             empty_world = (empty_world, Raise (ConstraintLoadError msg link))
     end.
Proof.
  split; [reflexivity|]. split; [vm_compute; reflexivity|].
  apply (new_picks_kind_in_order ex_shapes ex_validator empty_world).
  reflexivity.
Defined.

Lemma resolve_twice_same_instance_witness :
  resolve ex_shapes ex_validator empty_world
  = ((resolve ex_shapes ex_validator empty_world).1, Return 0%nat)
  /\ resolve ex_shapes ex_validator
       (resolve ex_shapes ex_validator empty_world).1
     = ((resolve ex_shapes ex_validator empty_world).1, Return 0%nat).
Proof.
  assert (H : resolve ex_shapes ex_validator empty_world
              = ((resolve ex_shapes ex_validator empty_world).1, Return 0%nat))
    by (vm_compute; reflexivity).
  split; [exact H|].
  exact (proj1 (resolve_twice_same_instance _ _ _ _ _ H)).
Defined.

(** C10: two nodes with the same string on one schema graph.  The second
    resolution finds the instance cached by the first, and Python then
    runs that instance's [__init__] with the second node: the second
    node's [sh:ask] values are read.  With a literal that has none the
    call raises a [ConstraintLoadError]; with a blank node that has its
    own [sh:ask] the cached instance's [query_text] is overwritten. *)
Theorem resolve_same_string_reads_query :
  let w1 := (resolve ex_shapes ex_validator empty_world).1 in
  let w2 := (resolve ex_shapes (URIRef "b0") empty_world).1 in
  term_str ex_validator_literal = term_str ex_validator
  /\ resolve ex_shapes ex_validator empty_world = (w1, Return 0%nat)
  /\ resolve ex_shapes ex_validator_literal w1
     = (w1, Raise (ConstraintLoadError
                     "AskValidator must have exactly one value for sh:ask."
                     shacl_link))
  /\ term_str (BNode "b0") = term_str (URIRef "b0")
  /\ resolve ex_shapes (URIRef "b0") empty_world = (w2, Return 0%nat)
  /\ query_text <$> heap w2 !! 0%nat
     = Some (Some "ASK { $this a <http://ex/A> }")
  /\ (resolve ex_shapes (BNode "b0") w2).2 = Return 0%nat
  /\ query_text <$> heap (resolve ex_shapes (BNode "b0") w2).1 !! 0%nat
     = Some (Some "ASK { $this a <http://ex/B> }").
Proof. vm_compute. repeat split; reflexivity. Qed.

(** ** The validators *)

Lemma set_add_elem (x y : Violation) (s : list Violation) :
  x ∈ set_add y s <-> x ∈ s \/ x = y.
Proof.
  unfold set_add. destruct (decide (y ∈ s)) as [Hy|Hy].
  - split; [by left | intros [H | ->]; done].
  - rewrite elem_of_app, list_elem_of_singleton. done.
Qed.

Lemma set_add_NoDup (y : Violation) (s : list Violation) :
  NoDup s -> NoDup (set_add y s).
Proof.
  intros Hs. unfold set_add. destruct (decide (y ∈ s)) as [Hy|Hy]; [done|].
  apply NoDup_app. split; [done|]. split; [|apply NoDup_singleton].
  intros x Hx Hx'. apply list_elem_of_singleton in Hx' as ->. done.
Qed.

Section ask_validate.
Context (self : Validator) (focus : Term) (target_graph : TargetGraph)
        (query_helper : option QueryHelper) (bind_vals : gmap string Term).

Let outcome := ask_outcome self focus target_graph query_helper bind_vals.

Lemma ask_loop_step v value_nodes acc :
  ask_loop self focus target_graph query_helper bind_vals
    (v :: value_nodes) acc =
  match outcome v with
  | NoAskAnswer =>
      Raise (ValidationFailure "ASK Query did not return an askAnswer.")
  | AskAnswer answer =>
      ask_loop self focus target_graph query_helper bind_vals value_nodes
        (if answer then acc else set_add (v, SBool false) acc)
  | AskAnswerNone =>
      ask_loop self focus target_graph query_helper bind_vals value_nodes acc
  end.
Proof.
  unfold outcome, ask_outcome. simpl.
  destruct (prepare_query _ _ _ _ _). done.
Qed.

Lemma ask_loop_spec value_nodes acc :
  NoDup acc ->
  match ask_loop self focus target_graph query_helper bind_vals
          value_nodes acc with
  | Raise e =>
      e = ValidationFailure "ASK Query did not return an askAnswer."
      /\ exists v, v ∈ value_nodes /\ outcome v = NoAskAnswer
  | Return violations =>
      (forall v, v ∈ value_nodes -> outcome v <> NoAskAnswer)
      /\ NoDup violations
      /\ forall x, x ∈ violations <->
           x ∈ acc \/
           exists v, v ∈ value_nodes /\ outcome v = AskAnswer false
                     /\ x = (v, SBool false)
  end.
Proof.
  revert acc. induction value_nodes as [|v vs IH]; intros acc Hacc.
  - simpl. split; [by intros v Hv; inversion Hv|]. split; [done|].
    intros x. split; [by left|].
    intros [H|(v & Hv & _)]; [done | inversion Hv].
  - assert (Hstep : forall acc',
               NoDup acc' ->
               outcome v <> NoAskAnswer ->
               (forall x, x ∈ acc' <->
                  x ∈ acc \/
                  (outcome v = AskAnswer false /\ x = (v, SBool false))) ->
               match ask_loop self focus target_graph query_helper bind_vals
                       vs acc' with
               | Raise e =>
                   e = ValidationFailure
                         "ASK Query did not return an askAnswer."
                   /\ exists v0, v0 ∈ v :: vs /\ outcome v0 = NoAskAnswer
               | Return violations =>
                   (forall v0, v0 ∈ v :: vs -> outcome v0 <> NoAskAnswer)
                   /\ NoDup violations
                   /\ forall x, x ∈ violations <->
                        x ∈ acc \/
                        exists v0, v0 ∈ v :: vs
                                   /\ outcome v0 = AskAnswer false
                                   /\ x = (v0, SBool false)
               end).
    { intros acc' Hacc' Hne Hmem. specialize (IH acc' Hacc').
      destruct (ask_loop _ _ _ _ _ vs acc') as [violations|e].
      - destruct IH as (Hall & Hnd & Hiff). split; [|split; [done|]].
        { intros v' [->|Hin]%elem_of_cons; [done | auto]. }
        intros x. rewrite Hiff, Hmem. split.
        + intros [[Hx|[Hf ->]]|(v' & Hin & Hf & ->)].
          * by left.
          * right. exists v. split; [left | done].
          * right. exists v'. split; [by right | done].
        + intros [Hx|(v' & [->|Hin]%elem_of_cons & Hf & ->)].
          * left. by left.
          * left. by right.
          * right. by exists v'.
      - destruct IH as (-> & v' & Hin & Hno). split; [done|].
        exists v'. split; [by right | done]. }
    rewrite ask_loop_step. destruct (outcome v) as [[]| |] eqn:Hv.
    + apply Hstep; [done | done |]. intros x. split; [by left|].
      by intros [Hx|[Hf _]].
    + apply Hstep; [by apply set_add_NoDup | done |].
      intros x. rewrite set_add_elem. split; intros [Hx|Hx]; auto.
      right. by destruct Hx.
    + apply Hstep; [done | done |]. intros x. split; [by left|].
      by intros [Hx|[Hf _]].
    + split; [done|]. exists v. split; [left | done].
Qed.
End ask_validate.

(** X17: [AskConstraintValidator.validate] raises a [ValidationFailure]
    exactly when reading the ask answer of some value node's query
    raises; otherwise it returns a duplicate-free set that holds
    [(v, False)] exactly for the value nodes [v] whose answer is [False],
    and nothing else: an answer [True] and an answer [None] add no
    signal. *)
Theorem ask_validate_signals self focus value_nodes target_graph
    query_helper new_bind_vals :
  let outcome :=
    ask_outcome self focus target_graph query_helper
      (bind_vals_of query_helper new_bind_vals) in
  match AskConstraintValidator_validate self focus value_nodes target_graph
          query_helper new_bind_vals with
  | Raise e =>
      e = ValidationFailure "ASK Query did not return an askAnswer."
      /\ exists v, v ∈ value_nodes /\ outcome v = NoAskAnswer
  | Return violations =>
      (forall v, v ∈ value_nodes -> outcome v <> NoAskAnswer)
      /\ NoDup violations
      /\ forall x, x ∈ violations <->
           exists v, v ∈ value_nodes /\ outcome v = AskAnswer false
                     /\ x = (v, SBool false)
  end.
Proof.
  intros outcome. unfold AskConstraintValidator_validate.
  pose proof (ask_loop_spec self focus target_graph query_helper
                (bind_vals_of query_helper new_bind_vals) value_nodes []
                (NoDup_nil_2)) as H.
  destruct (ask_loop _ _ _ _ _ _ _) as [violations|e]; [|done].
  destruct H as (Hall & Hnd & Hiff). split; [done|]. split; [done|].
  intros x. rewrite Hiff. split; [|by right].
  intros [Hx|H]; [inversion Hx | done].
Qed.

(** What [select_row] does, by the truth values of the three fields. *)
Lemma select_row_truthy v r acc :
  select_row v r acc =
  if opt_truthy (row_path r) || opt_truthy (row_value r)
     || opt_truthy (row_this r)
  then set_add (v, STuple (row_this r) (row_path r) (row_value r)) acc
  else match row_failure r with
       | Some f => if failure_flagged f then set_add (v, SBool true) acc
                   else acc
       | None => acc
       end.
Proof. reflexivity. Qed.

(** C2: a result row in which [value] is bound, to the integer literal
    [0], and nothing else: the row has one of the three fields present,
    yet [SelectConstraintValidator.validate] emits no signal for it,
    because the test [if p or v2 or t] takes the truth value of the
    bound terms. *)
Theorem select_validate_drops_falsy_row :
  row_value ex_zero_row = Some (Literal "0" (PyInt 0))
  /\ select_row (URIRef "http://ex/a") ex_zero_row [] = []
  /\ SelectConstraintValidator_validate ex_select_validator
       (URIRef "http://ex/a") [URIRef "http://ex/a"] ex_zero_graph
       (Some ex_helper) None
     = Return [].
Proof. vm_compute. repeat split; reflexivity. Qed.

(** ** The query bindings *)

Lemma lookup_update (m1 m2 : gmap string Term) (k : string) :
  (m1 ∪ m2) !! k = match m1 !! k with Some x => Some x | None => m2 !! k end.
Proof. rewrite lookup_union. destruct (m1 !! k), (m2 !! k); done. Qed.

Lemma ask_loop_ext self focus tg1 tg2 query_helper bind_vals value_nodes acc :
  (forall v, v ∈ value_nodes ->
     let '(init_binds, sparql_text) :=
       prepare_query self focus v query_helper bind_vals in
     tg1 sparql_text init_binds = tg2 sparql_text init_binds) ->
  ask_loop self focus tg1 query_helper bind_vals value_nodes acc
  = ask_loop self focus tg2 query_helper bind_vals value_nodes acc.
Proof.
  revert acc. induction value_nodes as [|v vs IH]; intros acc Hagree; [done|].
  simpl. pose proof (Hagree v (list_elem_of_here _ _)) as Hv.
  destruct (prepare_query self focus v query_helper bind_vals) as [b t].
  rewrite Hv.
  destruct (askAnswer _); [|
    apply IH; intros v' Hin; apply Hagree; by right | done].
  apply IH. intros v' Hin. apply Hagree. by right.
Qed.

Lemma select_loop_ext self focus tg1 tg2 query_helper bind_vals value_nodes acc :
  (forall v, v ∈ value_nodes ->
     let '(init_binds, sparql_text) :=
       prepare_query self focus v query_helper bind_vals in
     tg1 sparql_text init_binds = tg2 sparql_text init_binds) ->
  select_loop self focus tg1 query_helper bind_vals value_nodes acc
  = select_loop self focus tg2 query_helper bind_vals value_nodes acc.
Proof.
  revert acc. induction value_nodes as [|v vs IH]; intros acc Hagree; [done|].
  simpl. pose proof (Hagree v (list_elem_of_here _ _)) as Hv.
  destruct (prepare_query self focus v query_helper bind_vals) as [b t].
  rewrite Hv. apply IH. intros v' Hin. apply Hagree. by right.
Qed.

(** ** The bound evaluator *)

Lemma ask_validate_raise self focus value_nodes tg qh new :
  match AskConstraintValidator_validate self focus value_nodes tg qh new with
  | Raise e => e = ValidationFailure "ASK Query did not return an askAnswer."
  | Return _ => True
  end.
Proof.
  unfold AskConstraintValidator_validate.
  pose proof (ask_loop_spec self focus tg qh (bind_vals_of qh new)
                value_nodes [] (NoDup_nil_2)) as H.
  destruct (ask_loop _ _ _ _ _ _ _); [done | by destruct H].
Qed.

Lemma validate_raises_failure self f value_nodes tg qh new e :
  validate self f value_nodes tg qh new = Raise e ->
  is_ValidationFailure e = true.
Proof.
  unfold validate. destruct (cls self); [done|].
  pose proof (ask_validate_raise self f value_nodes tg qh new) as H.
  intros Heq. rewrite Heq in H. by subst e.
Qed.

Lemma evaluate_violation_outcome self f val vio st :
  match evaluate_violation self f (val, vio) st with
  | Raise e => vio = SBool true /\ e = generic_failure
  | Return _ => vio <> SBool true
  end.
Proof. destruct vio as [[]|t p v]; simpl; done. Qed.

Lemma evaluate_violations_outcome self f violations st :
  match evaluate_violations self f violations st with
  | Raise e => has_failure violations = true /\ e = generic_failure
  | Return _ => has_failure violations = false
  end.
Proof.
  revert st. induction violations as [|[val vio] vs IH]; intros st; [done|].
  cbn [evaluate_violations].
  pose proof (evaluate_violation_outcome self f val vio st) as Hv.
  destruct (evaluate_violation self f (val, vio) st) as [st'|e].
  - specialize (IH st'). simpl.
    destruct (evaluate_violations self f vs st') as [st''|e];
      destruct vio as [[]|]; try done.
  - destruct Hv as [-> ->]. done.
Qed.

Lemma evaluate_loop_outcome self tg fvn st :
  match evaluate_loop self tg fvn st with
  | Raise e =>
      exists before f value_nodes after,
        fvn = before ++ (f, value_nodes) :: after
        /\ Forall (clean_entry self tg) before
        /\ (signals_of self tg f value_nodes = Raise e
            \/ exists violations,
                 signals_of self tg f value_nodes = Return violations
                 /\ has_failure violations = true /\ e = generic_failure)
  | Return _ => Forall (clean_entry self tg) fvn
  end.
Proof.
  revert st. induction fvn as [|[f vs] fvn IH]; intros st; [by simpl|].
  cbn [evaluate_loop]. fold (signals_of self tg f vs).
  destruct (signals_of self tg f vs) as [violations|e] eqn:Hs.
  - pose proof (evaluate_violations_outcome self f violations st) as Hv.
    destruct (evaluate_violations self f violations st) as [st'|e].
    + assert (Hc : clean_entry self tg (f, vs)) by (by exists violations).
      specialize (IH st').
      destruct (evaluate_loop self tg fvn st') as [st''|e].
      * by constructor.
      * destruct IH as (before & f' & vs' & after & -> & Hb & H).
        exists ((f, vs) :: before), f', vs', after.
        split; [done|]. split; [by constructor | done].
    + destruct Hv as [Hf ->]. exists [], f, vs, fvn.
      split; [done|]. split; [constructor|]. right. by exists violations.
  - exists [], f, vs, fvn. split; [done|]. split; [constructor | by left].
Qed.

(** C5: when the [validate] call of some entry raises, or some returned
    signal is the boolean [True], [evaluate] raises a [ValidationFailure]
    and so returns no pair of conformance and reports; the exception is
    the one [validate] raised at the first entry that is not clean, or
    the evaluator's own failure when that entry returned a [True]
    signal. *)
Theorem evaluate_aborts_on_failure self tg fvn f value_nodes :
  (f, value_nodes) ∈ fvn ->
  match signals_of self tg f value_nodes with
  | Raise _ => True
  | Return violations => exists val, (val, SBool true) ∈ violations
  end ->
  exists e,
    evaluate self tg fvn = Raise e
    /\ is_ValidationFailure e = true
    /\ exists before f' value_nodes' after,
         fvn = before ++ (f', value_nodes') :: after
         /\ Forall (clean_entry self tg) before
         /\ (signals_of self tg f' value_nodes' = Raise e
             \/ exists violations,
                  signals_of self tg f' value_nodes' = Return violations
                  /\ has_failure violations = true /\ e = generic_failure).
Proof.
  intros Hin Hbad. unfold evaluate.
  set (st := {| reports := []; non_conformant := false;
                kw_extra_messages :=
                  SPARQLConstraintComponent_messages (constraint self) |}).
  pose proof (evaluate_loop_outcome self tg fvn st) as H.
  destruct (evaluate_loop self tg fvn st) as [st'|e].
  - exfalso. rewrite Forall_forall in H.
    destruct (H _ Hin) as (violations & Hs & Hclean). simpl in Hs.
    rewrite Hs in Hbad. destruct Hbad as [val Hval].
    assert (Htrue : has_failure violations = true).
    { unfold has_failure. apply existsb_exists.
      exists (val, SBool true). split; [by apply list_elem_of_In | done]. }
    congruence.
  - exists e. split; [done|]. split; [|done].
    destruct H as (before & f' & vs' & after & _ & _ & [Hr|Hr]).
    + by eapply validate_raises_failure.
    + by destruct Hr as (? & _ & _ & ->).
Qed.

Lemma evaluate_aborts_on_failure_witness :
  (ex_a, [ex_a]) ∈ [(ex_b, []); (ex_a, [ex_a])]
  /\ signals_of ex_select_bound ex_failing ex_a [ex_a]
     = Return [(ex_a, SBool true)]
  /\ exists e,
       evaluate ex_select_bound ex_failing [(ex_b, []); (ex_a, [ex_a])]
       = Raise e
       /\ is_ValidationFailure e = true.
Proof.
  assert (Hin : (ex_a, [ex_a]) ∈ [(ex_b, []); (ex_a, [ex_a])])
    by (right; left).
  assert (Hs : signals_of ex_select_bound ex_failing ex_a [ex_a]
               = Return [(ex_a, SBool true)])
    by (vm_compute; reflexivity).
  split; [exact Hin|]. split; [exact Hs|].
  destruct (evaluate_aborts_on_failure ex_select_bound ex_failing
              [(ex_b, []); (ex_a, [ex_a])] ex_a [ex_a] Hin) as (e & He & Hv & _).
  - rewrite Hs. exists ex_a. left.
  - exists e. split; [exact He | exact Hv].
Defined.

Lemma extend_and_report_value self msgs focus v p st :
  reports (extend_and_report self msgs focus v p st)
  = reports st ++ [ {| focus_node := focus; value_node := v;
                       result_path := p;
                       constraint_component := constraint_node (constraint self);
                       extra_messages := kw_extra_messages st ++ msgs |} ].
Proof. reflexivity. Qed.

Lemma evaluate_violation_report self f violation st st' :
  evaluate_violation self f violation st = Return st' ->
  exists rept,
    reports st' = reports st ++ [rept]
    /\ value_node_as_claimed self violation rept.
Proof.
  destruct violation as [val [[]|t p [v|]]]; simpl; try done;
    intros [= <-]; eexists; (split; [reflexivity|]); simpl; done.
Qed.

Lemma evaluate_violations_reports self f violations st st' :
  evaluate_violations self f violations st = Return st' ->
  exists new,
    reports st' = reports st ++ new
    /\ Forall2 (value_node_as_claimed self) violations new.
Proof.
  revert st. induction violations as [|violation vs IH]; intros st.
  - intros [= <-]. exists []. by rewrite app_nil_r.
  - cbn [evaluate_violations].
    destruct (evaluate_violation self f violation st) as [st1|e] eqn:Hv;
      [|done].
    intros Hrest. apply evaluate_violation_report in Hv as (rept & Hr & Hc).
    apply IH in Hrest as (new & Hn & Hall).
    exists (rept :: new). split; [|by constructor].
    rewrite Hn, Hr, <- app_assoc. done.
Qed.

Lemma evaluate_loop_reports self tg fvn st st' :
  evaluate_loop self tg fvn st = Return st' ->
  exists new,
    reports st' = reports st ++ new
    /\ Forall2 (value_node_as_claimed self) (violations_of self tg fvn) new.
Proof.
  revert st. induction fvn as [|[f vs] fvn IH]; intros st.
  - intros [= <-]. exists []. by rewrite app_nil_r.
  - cbn [evaluate_loop violations_of flat_map].
    fold (signals_of self tg f vs).
    destruct (signals_of self tg f vs) as [violations|e]; [|done].
    destruct (evaluate_violations self f violations st) as [st1|e] eqn:Hv;
      [|done].
    intros Hrest. apply evaluate_violations_reports in Hv as (new1 & Hr & H1).
    apply IH in Hrest as (new2 & Hn & H2).
    exists (new1 ++ new2). split; [|by apply Forall2_app].
    rewrite Hn, Hr, <- app_assoc. done.
Qed.

(** C7: when [evaluate] returns, its reports stand one for one, in
    order, for the violations it received, and the value node of each is:
    the explicit value of a tuple signal that has one; otherwise (a
    [False] signal, or a tuple without value) nothing on a property shape
    and the violation's own value node on a node shape. *)
Theorem evaluate_report_value_nodes self tg fvn conforms rs :
  evaluate self tg fvn = Return (conforms, rs) ->
  Forall2 (value_node_as_claimed self) (violations_of self tg fvn) rs.
Proof.
  unfold evaluate.
  destruct (evaluate_loop _ _ _ _) as [st'|e] eqn:Hloop; [|done].
  intros [= <- <-].
  apply evaluate_loop_reports in Hloop as (new & Hn & Hall).
  simpl in Hn. by rewrite Hn.
Qed.

Lemma evaluate_report_value_nodes_witness :
  evaluate ex_bound ex_no_foo [(ex_a, [ex_a]); (ex_b, [ex_b])]
  = Return (false,
            (evaluate_reports ex_bound ex_no_foo
               [(ex_a, [ex_a]); (ex_b, [ex_b])]))
  /\ Forall2 (value_node_as_claimed ex_bound)
       (violations_of ex_bound ex_no_foo [(ex_a, [ex_a]); (ex_b, [ex_b])])
       (evaluate_reports ex_bound ex_no_foo [(ex_a, [ex_a]); (ex_b, [ex_b])]).
Proof.
  assert (H : evaluate ex_bound ex_no_foo [(ex_a, [ex_a]); (ex_b, [ex_b])]
              = Return (false,
                        (evaluate_reports ex_bound ex_no_foo
                           [(ex_a, [ex_a]); (ex_b, [ex_b])])))
    by (vm_compute; reflexivity).
  split; [exact H|].
  exact (evaluate_report_value_nodes _ _ _ _ _ H).
Defined.

(** C1: two focus nodes that both violate an ASK validator with the
    message template [{$this} is not a Foo].  The report of the first
    carries its own bound message; the report of the second carries the
    first report's message and its own, because every [new_kwargs] shares
    the one [extra_messages] list that [extend] appends to. *)
Theorem evaluate_messages_accumulate :
  evaluate ex_bound ex_no_foo [(ex_a, [ex_a]); (ex_b, [ex_b])]
  = Return
      (false,
       [ {| focus_node := ex_a; value_node := Some ex_a; result_path := None;
            constraint_component := URIRef "http://ex/Component";
            extra_messages :=
              [string_literal "http://ex/a is not a Foo"] |};
         {| focus_node := ex_b; value_node := Some ex_b; result_path := None;
            constraint_component := URIRef "http://ex/Component";
            extra_messages :=
              [string_literal "http://ex/a is not a Foo";
               string_literal "http://ex/b is not a Foo"] |} ])
  /\ bind_messages ex_msg_helper (msg_args_map_of ex_bound ex_b ex_b)
     = [string_literal "http://ex/b is not a Foo"]
  /\ SPARQLConstraintComponent_messages (constraint ex_bound) = [].
Proof. vm_compute. repeat split; reflexivity. Qed.

(** ** The message templater *)

#[local] Arguments String.append !_ _ : simpl nomatch.

Lemma append_assoc (a b c : string) : (a +:+ b) +:+ c = a +:+ (b +:+ c).
Proof. induction a as [|x a IH]; simpl; [done | by rewrite IH]. Qed.

Lemma strip_prefix_app p s : strip_prefix p (p +:+ s) = Some s.
Proof.
  induction p as [|a p IH]; simpl; [done|]. by rewrite Ascii.eqb_refl.
Qed.

Lemma strip_prefix_length p s r :
  strip_prefix p s = Some r ->
  String.length s = (String.length p + String.length r)%nat.
Proof.
  revert s. induction p as [|a p IH]; intros s; simpl.
  - by intros [= ->].
  - destruct s as [|b s]; [done|]. destruct (Ascii.eqb a b); [|done].
    intros H. simpl. by rewrite (IH _ H).
Qed.

Lemma replace_fuel_enough old new f1 f2 s :
  nonempty old = true ->
  (String.length s < f1)%nat -> (String.length s < f2)%nat ->
  replace_fuel f1 old new s = replace_fuel f2 old new s.
Proof.
  intros Hold. revert f2 s.
  induction f1 as [|f1 IH]; intros f2 s H1 H2; [lia|].
  destruct f2 as [|f2]; [lia|]. simpl.
  destruct (strip_prefix old s) as [rest|] eqn:Hp.
  - apply strip_prefix_length in Hp.
    destruct old as [|a old]; [done|]. simpl in Hp.
    f_equal. apply IH; lia.
  - destruct s as [|c s]; [done|]. simpl in *. f_equal. apply IH; lia.
Qed.

Lemma str_replace_unfold old new s :
  nonempty old = true ->
  str_replace old new s =
  match strip_prefix old s with
  | Some rest => new +:+ str_replace old new rest
  | None =>
      match s with
      | EmptyString => EmptyString
      | String c s' => String c (str_replace old new s')
      end
  end.
Proof.
  intros Hold. unfold str_replace at 1. simpl.
  destruct (strip_prefix old s) as [rest|] eqn:Hp.
  - apply strip_prefix_length in Hp.
    destruct old as [|a old]; [done|]. simpl in Hp.
    f_equal. apply replace_fuel_enough; [done | lia | lia].
  - destruct s as [|c s]; reflexivity.
Qed.

Lemma has_char_app c a b : has_char c (a +:+ b) = has_char c a || has_char c b.
Proof.
  induction a as [|x a IH]; simpl; [done|]. by rewrite IH, orb_assoc.
Qed.

Lemma str_replace_text old new t rest :
  no_open t = true ->
  str_replace (String "{" old) new (t +:+ rest)
  = t +:+ str_replace (String "{" old) new rest.
Proof.
  unfold no_open. induction t as [|c t IH]; [done|]. cbn [has_char].
  intros [Hc Ht]%negb_true_iff%orb_false_iff.
  rewrite str_replace_unfold by done.
  cbn [strip_prefix String.append]. rewrite Hc.
  f_equal. apply IH. by rewrite Ht.
Qed.

Lemma strip_name k n rest :
  no_close k = true -> no_close n = true -> k <> n ->
  strip_prefix (k +:+ "}") (n +:+ String "}" rest) = None.
Proof.
  unfold no_close. revert n. induction k as [|a k IH]; intros n Hk Hn Hne.
  - destruct n as [|b n]; [done|]. cbn [has_char] in Hn.
    apply negb_true_iff, orb_false_iff in Hn as [Hb _].
    cbn [strip_prefix String.append]. by rewrite Hb.
  - cbn [has_char] in Hk. apply negb_true_iff, orb_false_iff in Hk as [Ha Hk].
    destruct n as [|b n]; cbn [strip_prefix String.append].
    + rewrite Ascii.eqb_sym, Ha. done.
    + destruct (Ascii.eqb a b) eqn:Hab; [|done].
      apply Ascii.eqb_eq in Hab as ->.
      cbn [has_char] in Hn. apply negb_true_iff, orb_false_iff in Hn as [_ Hn].
      apply IH; [by rewrite Hk | by rewrite Hn | congruence].
Qed.

Lemma replace_me_app a rest :
  replace_me a +:+ rest = String "{" (String "$" (a +:+ String "}" rest)).
Proof. unfold replace_me. simpl. by rewrite append_assoc. Qed.

Lemma str_replace_hole_same k new rest :
  str_replace (replace_me k) new (replace_me k +:+ rest)
  = new +:+ str_replace (replace_me k) new rest.
Proof.
  rewrite str_replace_unfold by done. by rewrite strip_prefix_app.
Qed.

Lemma str_replace_hole_other k n new rest :
  brace_free k = true -> brace_free n = true -> k <> n ->
  str_replace (replace_me k) new (replace_me n +:+ rest)
  = replace_me n +:+ str_replace (replace_me k) new rest.
Proof.
  unfold brace_free. intros [_ Hk]%andb_true_iff [Hno Hn]%andb_true_iff Hne.
  rewrite str_replace_unfold by done.
  rewrite !replace_me_app.
  change (replace_me k) with (String "{" (String "$" (k +:+ "}"))).
  cbn [strip_prefix]. rewrite !Ascii.eqb_refl.
  rewrite strip_name by done. f_equal.
  change (String "$" (n +:+ String "}" rest))
    with (("$" +:+ n) +:+ String "}" rest).
  change (String "}" rest) with ("}" +:+ rest).
  rewrite <- append_assoc.
  rewrite str_replace_text; [by rewrite !append_assoc|].
  unfold no_open in *. rewrite !has_char_app. simpl.
  apply negb_true_iff in Hno. by rewrite Hno.
Qed.

Lemma str_replace_render k new ps :
  brace_free k = true -> plain_template ps = true ->
  str_replace (replace_me k) new (render ps)
  = render (map (fill_one k new) ps).
Proof.
  intros Hk. induction ps as [|[t|n] ps IH];
    cbn [render fold_right render_piece map fill_one plain_template forallb].
  - done.
  - intros [Ht Hps]%andb_true_iff.
    change (replace_me k) with (String "{" (String "$" (k +:+ "}"))).
    rewrite str_replace_text by done. f_equal. by apply IH.
  - intros [Hn Hps]%andb_true_iff.
    destruct (String.eqb_spec k n) as [->|Hne];
      cbn [render fold_right render_piece].
    + rewrite str_replace_hole_same. f_equal. by apply IH.
    + rewrite str_replace_hole_other by done. f_equal. by apply IH.
Qed.

Lemma fill_one_plain k new ps :
  no_open new = true -> plain_template ps = true ->
  plain_template (map (fill_one k new) ps) = true.
Proof.
  intros Hnew. induction ps as [|[t|n] ps IH]; simpl; [done| |].
  - intros [Ht Hps]%andb_true_iff. rewrite Ht. by apply IH.
  - intros [Hn Hps]%andb_true_iff.
    destruct (String.eqb k n); simpl; [rewrite Hnew | rewrite Hn]; by apply IH.
Qed.

Lemma substitute_fill_one k v pm ps :
  substitute_placeholders pm (map (fill_one k (bound_str v)) ps)
  = substitute_placeholders ((k, v) :: pm) ps.
Proof.
  induction ps as [|[t|n] ps IH]; simpl; [done| |].
  - by rewrite IH.
  - rewrite <- IH. destruct (String.eqb k n); done.
Qed.

Lemma substitute_nothing ps : substitute_placeholders [] ps = render ps.
Proof. reflexivity. Qed.

Lemma make_message_substitutes pm ps :
  plain_params pm = true -> plain_template ps = true ->
  make_message pm (render ps) = substitute_placeholders pm ps.
Proof.
  revert ps. induction pm as [|[k v] pm IH]; intros ps Hpm Hps.
  - apply (eq_sym (substitute_nothing ps)).
  - simpl in Hpm.
    apply andb_true_iff in Hpm as [[Hk Hv]%andb_true_iff Hpm].
    unfold make_message. cbn [fold_left].
    rewrite str_replace_render by done.
    fold (make_message pm (render (map (fill_one k (bound_str v)) ps))).
    rewrite IH by (by try apply fill_one_plain).
    apply substitute_fill_one.
Qed.

(** C9 as stated fails when a bound value is the text of a placeholder
    that is substituted later: the template [{$a}] with [a] bound to
    ["{$b}"] and [b] to ["X"] gives ["X"], not the string form of the
    value of [a]. *)
Lemma make_messages_chained_counterexample :
  render [Hole "a"] = "{$a}"
  /\ substitute_placeholders ex_chained [Hole "a"] = "{$b}"
  /\ make_messages (validator_with_messages [string_literal "{$a}"])
       (Some ex_chained)
     = [string_literal "X"]
  /\ make_messages
       (validator_with_messages [string_literal (render [Hole "a"])])
       (Some ex_chained)
     <> [string_literal (substitute_placeholders ex_chained [Hole "a"])].
Proof. vm_compute. repeat split; [reflexivity.. | discriminate]. Qed.

(** C9, amended: for templates in which every [{] opens a placeholder
    whose name has no brace, and a parameter map whose names have no
    brace and whose values have no [{] in their string form,
    [make_messages] returns one message per template, in which every
    placeholder of a name in the map is replaced by the string form of
    its value and all other text is kept. *)
Theorem make_messages_substitutes self params_map templates :
  messages self
  = Some (map (fun ps => string_literal (render ps)) templates) ->
  plain_params params_map = true ->
  Forall (fun ps => plain_template ps = true) templates ->
  make_messages self (Some params_map)
  = map (fun ps => string_literal (substitute_placeholders params_map ps))
        templates.
Proof.
  intros Hm Hpm Hts. unfold make_messages. rewrite Hm. simpl.
  rewrite map_map. apply map_ext_Forall.
  eapply Forall_impl; [exact Hts|]. intros ps Hps. simpl.
  by rewrite make_message_substitutes.
Qed.

Lemma make_messages_substitutes_witness :
  make_messages
    (validator_with_messages
       [string_literal "Value {$value} of {$this} is bad"])
    (Some [("this", URIRef "http://ex/a"); ("value", Literal "7" (PyInt 7))])
  = [string_literal "Value 7 of http://ex/a is bad"].
Proof.
  exact (make_messages_substitutes
           (validator_with_messages
              [string_literal "Value {$value} of {$this} is bad"])
           [("this", URIRef "http://ex/a"); ("value", Literal "7" (PyInt 7))]
           [[Text "Value "; Hole "value"; Text " of "; Hole "this";
             Text " is bad"]]
           eq_refl eq_refl
           ltac:(repeat constructor)).
Defined.

(** * Further properties *)

(** ** Loading a validator *)

Lemma init_of_unfold c sg n self :
  init_of c sg n self =
  match SPARQLConstraintComponentValidator_init sg n self with
  | (self, Raise e) => (self, Raise e)
  | (self, Return _) =>
      match py_set (objects sg n (query_predicate c)) with
      | [Literal _ (PyStr q)] => (set_query_text q self, Return tt)
      | [_] => (self, Raise (query_type_error c))
      | _ => (self, Raise (query_count_error c))
      end
  end.
Proof. destruct c; reflexivity. Qed.

Lemma init_of_loaded_keeps c sg n o o' res :
  loaded o -> init_of c sg n o = (o', res) ->
  loaded o' /\ (forall e, res = Raise e -> o' = o).
Proof.
  intros (Hi & Hq & Hn & ms & Hm & Hms). rewrite init_of_unfold.
  rewrite base_init_noop by done.
  destruct (py_set _) as [|[?|?|? []] [|? ?]]; intros [= <- <-];
    try (split; [by repeat split; eauto | done]).
Qed.

Lemma init_of_fresh_loaded c sg n o o' :
  initialised o = false ->
  init_of c sg n o = (o', Return tt) -> loaded o'.
Proof.
  intros Hi. rewrite init_of_unfold.
  unfold SPARQLConstraintComponentValidator_init. rewrite Hi.
  destruct (forallb _ _) eqn:Hms; [|done].
  destruct (py_set (objects sg n (query_predicate c)))
    as [|[?|?|? []] [|? ?]]; try done.
  intros [= <-]. repeat split; simpl; eauto.
Qed.

Lemma run_init_cache_store r sg n k x w :
  run_init r sg n (cache_store k x w) =
  (cache_store k x (run_init r sg n w).1, (run_init r sg n w).2).
Proof.
  unfold run_init. simpl. destruct (heap w !! r) as [self|]; [|done].
  by destruct (init_of _ _ _ _).
Qed.

Lemma run_init_loaded_at r sg n w o :
  cache_loaded w -> heap w !! r = Some o -> loaded o ->
  cache_loaded (run_init r sg n w).1
  /\ (forall e, (run_init r sg n w).2 = Raise e -> (run_init r sg n w).1 = w).
Proof.
  intros Hw Hr Ho. unfold run_init. rewrite Hr.
  destruct (init_of (cls o) sg n o) as [o' res] eqn:Hinit.
  destruct (init_of_loaded_keeps _ _ _ _ _ _ Ho Hinit) as [Ho' Hsame].
  simpl. split.
  - intros k r' Hk. simpl in Hk. destruct (Hw _ _ Hk) as (o0 & Hr' & Ho0).
    simpl. destruct (decide (r = r')) as [<-|Hne].
    + exists o'. split; [|done].
      apply list_lookup_insert_eq. by eapply lookup_lt_Some.
    + exists o0. by rewrite list_lookup_insert_ne.
  - intros e ->. rewrite (Hsame e eq_refl). unfold store.
    rewrite list_insert_id by done. by destruct w.
Qed.

Lemma instantiate_unfold c sg n w :
  instantiate c sg n w =
  let '(o', res) := init_of c sg n (object_new c) in
  ({| heap := heap w ++ [o']; validator_cache := validator_cache w |},
   match res with
   | Return _ => Return (length (heap w))
   | Raise e => Raise e
   end).
Proof.
  unfold instantiate, alloc, run_init. simpl.
  rewrite lookup_app_r, Nat.sub_diag by done. simpl.
  destruct (init_of c sg n (object_new c)) as [o' [[]|e]]; unfold store; simpl;
    replace (length (heap w)) with (length (heap w) + 0)%nat at 1 by lia;
    by rewrite insert_app_r.
Qed.

(** X1: a first resolution of a node whose kind is determined, whose
    query predicate has exactly one string literal and whose messages are
    all string literals returns a new instance of that kind holding the
    graph, the node, the message set and the query text, and stores it
    in the cache under the key of the graph and node. *)
Theorem resolve_loads_validator sg n w c lex q :
  validator_cache w !! cache_key sg n = None ->
  kind_by_order sg n = Some c ->
  py_set (objects sg n (query_predicate c)) = [Literal lex (PyStr q)] ->
  forallb is_string_literal (py_set (objects sg n SH_message)) = true ->
  resolve sg n w =
    ({| heap := heap w ++ [fresh_validator c sg n q];
        validator_cache :=
          <[cache_key sg n := length (heap w)]> (validator_cache w) |},
     Return (length (heap w))).
Proof.
  intros Hmiss Hkind Hq Hms.
  assert (Hinit : init_of c sg n (object_new c)
                  = (fresh_validator c sg n q, Return tt)).
  { rewrite init_of_unfold. unfold SPARQLConstraintComponentValidator_init.
    simpl. rewrite Hms, Hq. reflexivity. }
  unfold resolve, SPARQLConstraintComponentValidator_new.
  rewrite Hmiss, validator_type_order, Hkind, instantiate_unfold, Hinit.
  rewrite run_init_cache_store. unfold run_init. simpl.
  rewrite lookup_app_r, Nat.sub_diag by done. simpl.
  rewrite (init_of_again _ _ _ _ _ Hinit). simpl.
  unfold cache_store, store. simpl. f_equal. f_equal.
  replace (length (heap w)) with (length (heap w) + 0)%nat at 1 by lia.
  by rewrite insert_app_r.
Qed.

Lemma resolve_loads_validator_witness :
  resolve ex_shapes ex_validator empty_world =
    ({| heap := [fresh_validator AskConstraintValidator ex_shapes ex_validator
                   "ASK { $this a <http://ex/Foo> }"];
        validator_cache := <[cache_key ex_shapes ex_validator := 0%nat]> ∅ |},
     Return 0%nat).
Proof.
  exact (resolve_loads_validator ex_shapes ex_validator empty_world
           AskConstraintValidator _ _ eq_refl eq_refl eq_refl eq_refl).
Defined.

(** X2: on a first resolution, a node of determined kind whose query
    predicate has no value or several raises the [ConstraintLoadError]
    of that kind about the count, and one whose single value is not a
    string literal raises the one about the type, even when the node has
    a usable query of the other kind; the cache is left as it was. *)
Theorem resolve_query_errors sg n w c :
  validator_cache w !! cache_key sg n = None ->
  kind_by_order sg n = Some c ->
  forallb is_string_literal (py_set (objects sg n SH_message)) = true ->
  is_string_literal <$> py_set (objects sg n (query_predicate c)) <> [true] ->
  exists w',
    resolve sg n w =
      (w', Raise (match py_set (objects sg n (query_predicate c)) with
                  | [_] => query_type_error c
                  | _ => query_count_error c
                  end))
    /\ validator_cache w' = validator_cache w.
Proof.
  intros Hmiss Hkind Hms Hq.
  unfold resolve, SPARQLConstraintComponentValidator_new.
  rewrite Hmiss, validator_type_order, Hkind, instantiate_unfold.
  rewrite init_of_unfold. unfold SPARQLConstraintComponentValidator_init.
  simpl. rewrite Hms.
  destruct (py_set (objects sg n (query_predicate c)))
    as [|[?|?|? []] [|? ?]];
    try (eexists; split; [reflexivity | reflexivity]); by destruct Hq.
Qed.

Lemma resolve_query_errors_witness :
  exists w',
    resolve ex_bad_shapes (URIRef "http://ex/s") empty_world =
      (w', Raise (query_count_error SelectConstraintValidator))
    /\ validator_cache w' = validator_cache empty_world.
Proof.
  exact (resolve_query_errors ex_bad_shapes (URIRef "http://ex/s") empty_world
           SelectConstraintValidator eq_refl eq_refl eq_refl
           ltac:(discriminate)).
Defined.

(** X3: on a first resolution of a node of determined kind, a
    [sh:message] value that is not a literal with a string value makes
    the resolution raise the [ConstraintLoadError] about messages,
    before the query predicate is looked at, and nothing is cached. *)
Theorem resolve_message_error sg n w c :
  validator_cache w !! cache_key sg n = None ->
  kind_by_order sg n = Some c ->
  forallb is_string_literal (py_set (objects sg n SH_message)) = false ->
  exists w',
    resolve sg n w = (w', Raise message_type_error)
    /\ validator_cache w' = validator_cache w.
Proof.
  intros Hmiss Hkind Hms.
  unfold resolve, SPARQLConstraintComponentValidator_new.
  rewrite Hmiss, validator_type_order, Hkind, instantiate_unfold.
  rewrite init_of_unfold. unfold SPARQLConstraintComponentValidator_init.
  simpl. rewrite Hms. eexists; split; [reflexivity | reflexivity].
Qed.

Lemma resolve_message_error_witness :
  exists w',
    resolve ex_bad_shapes (URIRef "http://ex/m") empty_world
    = (w', Raise message_type_error)
    /\ validator_cache w' = validator_cache empty_world.
Proof.
  exact (resolve_message_error ex_bad_shapes (URIRef "http://ex/m")
           empty_world AskConstraintValidator eq_refl eq_refl eq_refl).
Defined.

(** ** What resolution keeps *)

Lemma resolve_miss_unfold sg n w :
  validator_cache w !! cache_key sg n = None ->
  resolve sg n w =
  match validator_type sg n with
  | None =>
      (w, Raise (ConstraintLoadError
                   "Validator must be of type sh:SPARQLSelectValidator or sh:SPARQLAskValidator and must have either a sh:select or a sh:ask predicate."
                   shacl_link))
  | Some c =>
      let '(o', res) := init_of c sg n (object_new c) in
      match res with
      | Return _ =>
          ({| heap := heap w ++ [o'];
              validator_cache :=
                <[cache_key sg n := length (heap w)]> (validator_cache w) |},
           Return (length (heap w)))
      | Raise e =>
          ({| heap := heap w ++ [o']; validator_cache := validator_cache w |},
           Raise e)
      end
  end.
Proof.
  intros Hmiss. unfold resolve, SPARQLConstraintComponentValidator_new.
  rewrite Hmiss. destruct (validator_type sg n) as [c|]; [|done].
  rewrite instantiate_unfold.
  pose proof (init_of_cls c sg n (object_new c)) as Hc.
  destruct (init_of c sg n (object_new c)) as [o' [[]|e]] eqn:Hinit; [|done].
  rewrite run_init_cache_store. unfold run_init. simpl in Hc.
  cbn [heap]. rewrite lookup_app_r, Nat.sub_diag by done. cbn [lookup list_lookup].
  rewrite Hc, (init_of_again _ _ _ _ _ Hinit).
  unfold cache_store, store. simpl. f_equal. f_equal.
  replace (length (heap w)) with (length (heap w) + 0)%nat at 1 by lia.
  by rewrite insert_app_r.
Qed.

Lemma resolve_hit_unfold sg n w r :
  validator_cache w !! cache_key sg n = Some r ->
  resolve sg n w =
  ((run_init r sg n w).1,
   match (run_init r sg n w).2 with
   | Return _ => Return r
   | Raise e => Raise e
   end).
Proof.
  intros Hhit. unfold resolve, SPARQLConstraintComponentValidator_new.
  rewrite Hhit. by destruct (run_init r sg n w) as [w1 [[]|e]].
Qed.

Lemma cache_loaded_grow w o :
  cache_loaded w ->
  cache_loaded
    {| heap := heap w ++ [o]; validator_cache := validator_cache w |}.
Proof.
  intros Hw k r Hk. destruct (Hw _ _ Hk) as (o0 & Hr & Ho0).
  exists o0. split; [|done]. simpl.
  rewrite lookup_app_l; [done | by eapply lookup_lt_Some].
Qed.

Lemma resolve_cache_invariant sg n w :
  cache_loaded w ->
  cache_loaded (resolve sg n w).1
  /\ forall r,
       (resolve sg n w).2 = Return r ->
       validator_cache (resolve sg n w).1 !! cache_key sg n = Some r
       /\ exists o, heap (resolve sg n w).1 !! r = Some o /\ loaded o.
Proof.
  intros Hw.
  destruct (validator_cache w !! cache_key sg n) as [r0|] eqn:Hc.
  - rewrite (resolve_hit_unfold _ _ _ _ Hc). simpl.
    destruct (Hw _ _ Hc) as (o & Hr & Ho).
    destruct (run_init_loaded_at r0 sg n w o Hw Hr Ho) as [Hw1 _].
    split; [done|]. intros r Hret.
    assert (r = r0) as -> by (destruct (run_init r0 sg n w).2; congruence).
    pose proof (run_init_cache r0 sg n w) as Hcache.
    split; [by rewrite Hcache|]. apply (Hw1 (cache_key sg n)).
    by rewrite Hcache.
  - rewrite (resolve_miss_unfold _ _ _ Hc).
    destruct (validator_type sg n) as [c|]; [|by split].
    destruct (init_of c sg n (object_new c)) as [o' [[]|e]] eqn:Hinit; simpl.
    + assert (Ho' : loaded o')
        by exact (init_of_fresh_loaded c sg n (object_new c) o' eq_refl Hinit).
      assert (Hnew : (heap w ++ [o']) !! length (heap w) = Some o')
        by (by rewrite lookup_app_r, Nat.sub_diag).
      split.
      * intros k r Hk. simpl in Hk.
        destruct (decide (cache_key sg n = k)) as [<-|Hne].
        -- rewrite lookup_insert_eq in Hk. injection Hk as <-. by exists o'.
        -- rewrite lookup_insert_ne in Hk by done.
           by apply (cache_loaded_grow w o' Hw k r).
      * intros r [= <-]. split; [apply lookup_insert_eq | by exists o'].
    + split; [by apply cache_loaded_grow | done].
Qed.

(** X4: the cache only ever refers to loaded instances.  This holds of
    the empty cache, every resolution keeps it whether it returns or
    raises, and a resolution that returns gives a reference to a loaded
    instance that the cache holds under the key of the graph and node. *)
Theorem resolve_keeps_cache_loaded sg n w :
  cache_loaded w ->
  cache_loaded (resolve sg n w).1
  /\ forall r,
       (resolve sg n w).2 = Return r ->
       validator_cache (resolve sg n w).1 !! cache_key sg n = Some r
       /\ exists o, heap (resolve sg n w).1 !! r = Some o /\ loaded o.
Proof. apply resolve_cache_invariant. Qed.

Lemma cache_loaded_empty : cache_loaded empty_world.
Proof.
  intros k r Hk. unfold empty_world in Hk. cbn [validator_cache] in Hk.
  by rewrite lookup_empty in Hk.
Qed.

Lemma resolve_keeps_cache_loaded_witness :
  cache_loaded (resolve ex_shapes ex_validator empty_world).1.
Proof.
  exact (proj1 (resolve_keeps_cache_loaded ex_shapes ex_validator empty_world
                  cache_loaded_empty)).
Defined.

(** X5: a resolution that raises changes nothing that can be reached:
    the cache is the one before the call and every instance allocated
    before the call is as it was. *)
Theorem resolve_failure_changes_nothing sg n w w' e :
  cache_loaded w ->
  resolve sg n w = (w', Raise e) ->
  validator_cache w' = validator_cache w
  /\ forall r o, heap w !! r = Some o -> heap w' !! r = Some o.
Proof.
  intros Hw.
  destruct (validator_cache w !! cache_key sg n) as [r0|] eqn:Hc.
  - rewrite (resolve_hit_unfold _ _ _ _ Hc).
    destruct (Hw _ _ Hc) as (o & Hr & Ho).
    destruct (run_init_loaded_at r0 sg n w o Hw Hr Ho) as [_ Hsame].
    destruct (run_init r0 sg n w) as [w1 [[]|e1]]; [done|].
    intros [= <- <-]. simpl in Hsame. by rewrite (Hsame e1 eq_refl).
  - rewrite (resolve_miss_unfold _ _ _ Hc).
    destruct (validator_type sg n) as [c|]; [|by intros [= <- <-]].
    destruct (init_of c sg n (object_new c)) as [o' [[]|e1]]; [done|].
    intros [= <- <-]. split; [done|]. intros r o Hr. simpl.
    rewrite lookup_app_l; [done | by eapply lookup_lt_Some].
Qed.

Lemma resolve_failure_changes_nothing_witness :
  let w1 := (resolve ex_shapes ex_validator empty_world).1 in
  validator_cache (resolve ex_shapes ex_validator_literal w1).1
  = validator_cache w1.
Proof.
  intros w1.
  assert (Hw1 : cache_loaded w1)
    by exact (proj1 (resolve_cache_invariant ex_shapes ex_validator
                       empty_world cache_loaded_empty)).
  assert (H : resolve ex_shapes ex_validator_literal w1
              = ((resolve ex_shapes ex_validator_literal w1).1,
                 Raise (query_count_error AskConstraintValidator)))
    by (vm_compute; reflexivity).
  exact (proj1 (resolve_failure_changes_nothing _ _ _ _ _ Hw1 H)).
Defined.

(** X6: resolution never evicts or rebinds a cache entry: an entry
    present before the call is the same after it, and only the key of
    the resolved graph and node can gain one. *)
Theorem resolve_keeps_cache_entries sg n w k :
  k <> cache_key sg n \/ is_Some (validator_cache w !! k) ->
  validator_cache (resolve sg n w).1 !! k = validator_cache w !! k.
Proof.
  intros Hk.
  destruct (validator_cache w !! cache_key sg n) as [r0|] eqn:Hc.
  - rewrite (resolve_hit_unfold _ _ _ _ Hc). simpl.
    by rewrite run_init_cache.
  - rewrite (resolve_miss_unfold _ _ _ Hc).
    destruct (validator_type sg n) as [c|]; [|done].
    destruct (init_of c sg n (object_new c)) as [o' [[]|e]]; [|done].
    simpl. apply lookup_insert_ne. intros <-.
    destruct Hk as [Hk|[x Hx]]; [done | congruence].
Qed.

Lemma resolve_keeps_cache_entries_witness :
  let w1 := (resolve ex_shapes ex_validator empty_world).1 in
  validator_cache (resolve ex_shapes (URIRef "b0") w1).1
    !! cache_key ex_shapes ex_validator
  = validator_cache w1 !! cache_key ex_shapes ex_validator.
Proof.
  intros w1. apply resolve_keeps_cache_entries. left. intros H.
  assert (H2 := f_equal (@snd Z string) H). vm_compute in H2. discriminate H2.
Defined.

(** ** The SELECT validator *)

Lemma select_row_signal v r acc :
  select_row v r acc =
  match row_signal r with
  | Some s => set_add (v, s) acc
  | None => acc
  end.
Proof.
  unfold select_row, row_signal.
  destruct (_ || _); [done|].
  destruct (row_failure r) as [f|]; [|done]. by destruct (failure_flagged f).
Qed.

Lemma select_rows_fold v rs acc :
  NoDup acc ->
  NoDup (fold_left (fun acc r => select_row v r acc) rs acc)
  /\ forall x,
       x ∈ fold_left (fun acc r => select_row v r acc) rs acc <->
       x ∈ acc \/ exists r s, r ∈ rs /\ row_signal r = Some s /\ x = (v, s).
Proof.
  revert acc. induction rs as [|r rs IH]; intros acc Hacc; simpl.
  - split; [done|]. intros x. split; [by left|].
    intros [H|(r & s & Hr & _)]; [done | inversion Hr].
  - rewrite select_row_signal.
    destruct (row_signal r) as [s|] eqn:Hs.
    + destruct (IH (set_add (v, s) acc) (set_add_NoDup _ _ Hacc))
        as [Hnd Hiff].
      split; [done|]. intros x. rewrite Hiff, set_add_elem. split.
      * intros [[H| ->]|(r' & s' & Hr & Hs' & ->)].
        -- by left.
        -- right. exists r, s. split; [left | done].
        -- right. exists r', s'. split; [by right | done].
      * intros [H|(r' & s' & [->|Hr]%elem_of_cons & Hs' & ->)].
        -- left. by left.
        -- left. right. congruence.
        -- right. by exists r', s'.
    + destruct (IH acc Hacc) as [Hnd Hiff]. split; [done|].
      intros x. rewrite Hiff. split.
      * intros [H|(r' & s' & Hr & Hs' & ->)]; [by left|].
        right. exists r', s'. split; [by right | done].
      * intros [H|(r' & s' & [->|Hr]%elem_of_cons & Hs' & ->)];
          [by left | congruence | right; by exists r', s'].
Qed.

Lemma select_loop_spec self focus tg qh bind_vals value_nodes acc :
  NoDup acc ->
  NoDup (select_loop self focus tg qh bind_vals value_nodes acc)
  /\ forall x,
       x ∈ select_loop self focus tg qh bind_vals value_nodes acc <->
       x ∈ acc \/
       exists v r s,
         v ∈ value_nodes /\ r ∈ select_rows self focus tg qh bind_vals v
         /\ row_signal r = Some s /\ x = (v, s).
Proof.
  revert acc. induction value_nodes as [|v vs IH]; intros acc Hacc.
  - split; [done|]. intros x. split; [by left|].
    intros [H|(v & r & s & Hv & _)]; [done | inversion Hv].
  - cbn [select_loop].
    assert (Hrows : select_rows self focus tg qh bind_vals v
                    = let '(b, t) := prepare_query self focus v qh bind_vals in
                      rows (tg t b)) by done.
    destruct (prepare_query self focus v qh bind_vals) as [b t].
    destruct (select_rows_fold v (rows (tg t b)) acc Hacc) as [Hnd Hfold].
    destruct (IH _ Hnd) as [Hnd' Hiff]. split; [done|].
    intros x. rewrite Hiff, Hfold. split.
    + intros [[H|(r & s & Hr & Hs & ->)]|(v' & r & s & Hv & Hr & Hs & ->)].
      * by left.
      * right. exists v, r, s. rewrite Hrows. split; [left | done].
      * right. exists v', r, s. split; [by right | done].
    + intros [H|(v' & r & s & [->|Hv]%elem_of_cons & Hr & Hs & ->)].
      * left. by left.
      * left. right. exists r, s. by rewrite Hrows in Hr.
      * right. by exists v', r, s.
Qed.

(** X7: [SelectConstraintValidator.validate] never raises.  It returns
    a duplicate-free set that holds [(v, s)] exactly when [v] is one of
    the value nodes and some row of its query stands for the signal [s]:
    the tuple of the three fields when one of them is true, the boolean
    [True] when none is and the row flags a failure, nothing otherwise.
    Repeated rows collapse, and no rows give no signal. *)
Theorem select_validate_signals self focus value_nodes target_graph
    query_helper new_bind_vals :
  exists violations,
    SelectConstraintValidator_validate self focus value_nodes target_graph
      query_helper new_bind_vals = Return violations
    /\ NoDup violations
    /\ forall x,
         x ∈ violations <->
         exists v r s,
           v ∈ value_nodes
           /\ r ∈ select_rows self focus target_graph query_helper
                    (bind_vals_of query_helper new_bind_vals) v
           /\ row_signal r = Some s /\ x = (v, s).
Proof.
  eexists. split; [reflexivity|].
  destruct (select_loop_spec self focus target_graph query_helper
              (bind_vals_of query_helper new_bind_vals) value_nodes []
              (NoDup_nil_2)) as [Hnd Hiff].
  split; [done|]. intros x. rewrite Hiff. split; [|by right].
  intros [H|H]; [inversion H | done].
Qed.

Lemma ask_loop_no_helper self focus tg bv1 bv2 value_nodes acc :
  ask_loop self focus tg None bv1 value_nodes acc
  = ask_loop self focus tg None bv2 value_nodes acc.
Proof.
  revert acc. induction value_nodes as [|v vs IH]; intros acc; [done|].
  simpl. destruct (askAnswer _); [apply IH | apply IH | done].
Qed.

Lemma select_loop_no_helper self focus tg bv1 bv2 value_nodes acc :
  select_loop self focus tg None bv1 value_nodes acc
  = select_loop self focus tg None bv2 value_nodes acc.
Proof.
  revert acc. induction value_nodes as [|v vs IH]; intros acc; [done|].
  simpl. apply IH.
Qed.

(** X8: without a query helper both validators run the validator's own
    query text with no initial bindings for every value node, so the
    [new_bind_vals] argument has no effect on the result. *)
Theorem validate_without_helper_ignores_bindings self focus value_nodes
    target_graph new1 new2 :
  validate self focus value_nodes target_graph None new1
  = validate self focus value_nodes target_graph None new2
  /\ forall v,
       prepare_query self focus v None (bind_vals_of None new1)
       = (∅, default "" (query_text self)).
Proof.
  split; [|done]. unfold validate.
  destruct (cls self);
    unfold SelectConstraintValidator_validate, AskConstraintValidator_validate.
  - f_equal. apply select_loop_no_helper.
  - apply ask_loop_no_helper.
Qed.

(** ** The reports of [evaluate] *)

Lemma running_concat_app acc b1 b2 :
  running_concat acc (b1 ++ b2)
  = running_concat acc b1 ++ running_concat (acc ++ concat b1) b2.
Proof.
  revert acc. induction b1 as [|b b1 IH]; intros acc; simpl.
  - by rewrite app_nil_r.
  - by rewrite IH, app_assoc.
Qed.

Lemma evaluate_violation_trace self f violation st st' :
  evaluate_violation self f violation st = Return st' ->
  exists rept,
    reports st' = reports st ++ [rept]
    /\ extra_messages rept
       = kw_extra_messages st ++ violation_messages self (f, violation)
    /\ kw_extra_messages st' = extra_messages rept
    /\ report_header_as_read self (f, violation) rept
    /\ non_conformant st' = true.
Proof.
  destruct violation as [val [[]|t p v]]; simpl; try done;
    intros [= <-]; eexists; (split; [reflexivity|]); simpl;
    repeat split; try done.
Qed.

Lemma evaluate_violations_trace self f violations st st' :
  evaluate_violations self f violations st = Return st' ->
  exists new,
    reports st' = reports st ++ new
    /\ map extra_messages new
       = running_concat (kw_extra_messages st)
           (map (violation_messages self) (map (fun x => (f, x)) violations))
    /\ kw_extra_messages st'
       = kw_extra_messages st
         ++ concat (map (violation_messages self)
                      (map (fun x => (f, x)) violations))
    /\ Forall2 (report_header_as_read self)
         (map (fun x => (f, x)) violations) new
    /\ non_conformant st'
       = match violations with [] => non_conformant st | _ => true end.
Proof.
  revert st. induction violations as [|violation vs IH]; intros st.
  - intros [= <-]. exists []. simpl. by rewrite !app_nil_r.
  - cbn [evaluate_violations].
    destruct (evaluate_violation self f violation st) as [st1|e] eqn:Hv;
      [|done].
    intros Hrest.
    apply evaluate_violation_trace in Hv as (rept & Hr & Hm & Hk & Hh & Hn).
    apply IH in Hrest as (new & Hr' & Hm' & Hk' & Hh' & Hn').
    exists (rept :: new). simpl. rewrite Hr', Hr, <- app_assoc.
    split; [done|]. rewrite Hm', Hk', Hk, Hm, <- app_assoc.
    split; [done|]. split; [done|]. split; [by constructor|].
    rewrite Hn'. by destruct vs.
Qed.

Lemma evaluate_loop_trace self tg fvn st st' :
  evaluate_loop self tg fvn st = Return st' ->
  exists new,
    reports st' = reports st ++ new
    /\ map extra_messages new
       = running_concat (kw_extra_messages st)
           (map (violation_messages self) (focused_violations_of self tg fvn))
    /\ kw_extra_messages st'
       = kw_extra_messages st
         ++ concat (map (violation_messages self)
                      (focused_violations_of self tg fvn))
    /\ Forall2 (report_header_as_read self)
         (focused_violations_of self tg fvn) new
    /\ non_conformant st'
       = match focused_violations_of self tg fvn with
         | [] => non_conformant st
         | _ => true
         end.
Proof.
  revert st. induction fvn as [|[f vs] fvn IH]; intros st.
  - intros [= <-]. exists []. simpl. by rewrite !app_nil_r.
  - cbn [evaluate_loop focused_violations_of flat_map].
    fold (signals_of self tg f vs).
    destruct (signals_of self tg f vs) as [violations|e]; [|done].
    destruct (evaluate_violations self f violations st) as [st1|e] eqn:Hv;
      [|done].
    intros Hrest.
    apply evaluate_violations_trace in Hv as (new1 & Hr & Hm & Hk & Hh & Hn).
    apply IH in Hrest as (new2 & Hr' & Hm' & Hk' & Hh' & Hn').
    fold (focused_violations_of self tg fvn).
    exists (new1 ++ new2).
    rewrite Hr', Hr, <- app_assoc. split; [done|].
    rewrite !map_app, running_concat_app, concat_app, Hm, Hm', Hk', Hk.
    rewrite <- app_assoc. split; [done|]. split; [done|].
    split; [by apply Forall2_app|].
    rewrite Hn', Hn. destruct violations; [done|].
    simpl. by destruct (focused_violations_of self tg fvn).
Qed.

Lemma evaluate_trace self tg fvn conforms rs :
  evaluate self tg fvn = Return (conforms, rs) ->
  map extra_messages rs
  = running_concat (SPARQLConstraintComponent_messages (constraint self))
      (map (violation_messages self) (focused_violations_of self tg fvn))
  /\ Forall2 (report_header_as_read self)
       (focused_violations_of self tg fvn) rs
  /\ conforms = match focused_violations_of self tg fvn with
                | [] => true
                | _ => false
                end.
Proof.
  unfold evaluate.
  destruct (evaluate_loop _ _ _ _) as [st'|e] eqn:Hloop; [|done].
  intros [= <- <-].
  apply evaluate_loop_trace in Hloop as (new & Hr & Hm & _ & Hh & Hn).
  simpl in *. rewrite Hr, Hn. split; [done|]. split; [done|].
  by destruct (focused_violations_of self tg fvn).
Qed.

(** X9: when [evaluate] returns, it returns one report per violation
    received, and the conformance flag is [True] exactly when there is
    no report at all. *)
Theorem evaluate_conforms_iff_no_report self tg fvn conforms rs :
  evaluate self tg fvn = Return (conforms, rs) ->
  length rs = length (focused_violations_of self tg fvn)
  /\ (conforms = true <-> rs = []).
Proof.
  intros H. apply evaluate_trace in H as (_ & Hh & ->).
  apply Forall2_length in Hh. split; [done|].
  destruct (focused_violations_of self tg fvn), rs; simpl in *;
    try done; split; done.
Qed.

Lemma evaluate_conforms_iff_no_report_witness :
  length (evaluate_reports ex_bound ex_no_foo [(ex_a, [ex_a]); (ex_b, [ex_b])])
  = length (focused_violations_of ex_bound ex_no_foo
              [(ex_a, [ex_a]); (ex_b, [ex_b])])
  /\ (false = true <->
      evaluate_reports ex_bound ex_no_foo [(ex_a, [ex_a]); (ex_b, [ex_b])]
      = []).
Proof.
  assert (H : evaluate ex_bound ex_no_foo [(ex_a, [ex_a]); (ex_b, [ex_b])]
              = Return (false,
                        (evaluate_reports ex_bound ex_no_foo
                           [(ex_a, [ex_a]); (ex_b, [ex_b])])))
    by (vm_compute; reflexivity).
  exact (evaluate_conforms_iff_no_report _ _ _ _ _ H).
Defined.

(** X10: when [evaluate] returns, every report names the constraint's
    node as its component; its result path is the path of a tuple signal
    and absent for a [False] signal (also on a property shape); its focus
    is the [this] of a tuple signal when that term is true in Python's
    sense, and the focus node under evaluation otherwise. *)
Theorem evaluate_report_headers self tg fvn conforms rs :
  evaluate self tg fvn = Return (conforms, rs) ->
  Forall2 (report_header_as_read self) (focused_violations_of self tg fvn) rs.
Proof. intros H. by apply evaluate_trace in H as (_ & Hh & _). Qed.

Lemma evaluate_report_headers_witness :
  evaluate ex_select_bound (ex_rows [ex_value_row; ex_empty_this_row])
    [(ex_a, [ex_a])]
  = Return (false,
            evaluate_reports ex_select_bound
              (ex_rows [ex_value_row; ex_empty_this_row]) [(ex_a, [ex_a])])
  /\ Forall2 (report_header_as_read ex_select_bound)
       [ (ex_a, (ex_a, STuple None (Some (URIRef "http://ex/p")) (Some ex_b)));
         (ex_a, (ex_a, STuple (Some (URIRef "")) None (Some ex_b))) ]
       (evaluate_reports ex_select_bound
          (ex_rows [ex_value_row; ex_empty_this_row]) [(ex_a, [ex_a])]).
Proof.
  assert (H : evaluate ex_select_bound
                (ex_rows [ex_value_row; ex_empty_this_row]) [(ex_a, [ex_a])]
              = Return (false,
                        evaluate_reports ex_select_bound
                          (ex_rows [ex_value_row; ex_empty_this_row])
                          [(ex_a, [ex_a])]))
    by (vm_compute; reflexivity).
  split; [exact H|].
  exact (evaluate_report_headers _ _ _ _ _ H).
Defined.

(** X11: when [evaluate] returns, the message list of each report is
    the message list of the report before it followed by the messages
    bound for its own violation, the first one starting from the
    constraint's messages: the lists grow along the reports of one
    call. *)
Theorem evaluate_messages_running self tg fvn conforms rs :
  evaluate self tg fvn = Return (conforms, rs) ->
  map extra_messages rs
  = running_concat (SPARQLConstraintComponent_messages (constraint self))
      (map (violation_messages self) (focused_violations_of self tg fvn)).
Proof. intros H. by apply evaluate_trace in H as (Hm & _). Qed.

Lemma evaluate_messages_running_witness :
  map extra_messages
    (evaluate_reports ex_bound ex_no_foo [(ex_a, [ex_a]); (ex_b, [ex_b])])
  = running_concat []
      (map (violation_messages ex_bound)
         (focused_violations_of ex_bound ex_no_foo
            [(ex_a, [ex_a]); (ex_b, [ex_b])])).
Proof.
  assert (H : evaluate ex_bound ex_no_foo [(ex_a, [ex_a]); (ex_b, [ex_b])]
              = Return (false,
                        (evaluate_reports ex_bound ex_no_foo
                           [(ex_a, [ex_a]); (ex_b, [ex_b])])))
    by (vm_compute; reflexivity).
  exact (evaluate_messages_running _ _ _ _ _ H).
Defined.

(** X12: [evaluate] returns a result exactly when the [validate] call
    of every entry returns and none of the returned signals is the
    boolean [True]. *)
Theorem evaluate_returns_iff_clean self tg fvn :
  (exists conforms rs, evaluate self tg fvn = Return (conforms, rs))
  <-> Forall (clean_entry self tg) fvn.
Proof.
  unfold evaluate.
  set (st := {| reports := []; non_conformant := false;
                kw_extra_messages :=
                  SPARQLConstraintComponent_messages (constraint self) |}).
  pose proof (evaluate_loop_outcome self tg fvn st) as H.
  destruct (evaluate_loop self tg fvn st) as [st'|e].
  - split; [done | eauto].
  - split; [by intros (? & ? & ?)|]. intros Hall. exfalso.
    destruct H as (before & f & vs & after & -> & _ & Hbad).
    apply Forall_app in Hall as [_ Hall].
    apply Forall_cons in Hall as [(violations & Hs & Hclean) _].
    simpl in Hs. destruct Hbad as [Hr|(vs' & Hr & Hf & _)]; congruence.
Qed.

(** ** Choosing a validator for a shape *)

Lemma choose_validator_node_spec self s :
  choose_validator_node self s =
  match chosen_node self s with
  | Some n =>
      Some (n,
            bool_decide (required_class self s = AskConstraintValidator),
            bool_decide (required_class self s = SelectConstraintValidator))
  | None => None
  end.
Proof.
  unfold choose_validator_node, chosen_node, required_class, own_pool.
  destruct (is_property_shape s), (property_validators self),
    (node_validators self), (validators self); reflexivity.
Qed.

Lemma apply_to_shape_required SPARQLQueryHelper v self s c :
  apply_to_shape_via_constraint SPARQLQueryHelper v self s
    (bool_decide (c = AskConstraintValidator))
    (bool_decide (c = SelectConstraintValidator))
  = if bool_decide (cls v = c)
    then Return (BoundShapeValidatorComponent_init SPARQLQueryHelper self s v)
    else Raise (match c with
                | AskConstraintValidator => must_be_ask_error
                | SelectConstraintValidator => must_be_select_error
                end).
Proof.
  unfold apply_to_shape_via_constraint. by destruct c, (cls v).
Qed.

(** X13: when [make_validator_for_shape] returns, the bound component
    carries the shape and the declaring constraint, and its validator is
    the loaded instance cached for the first node of the pool of the
    shape's kind, or of the generic pool when that pool is empty; the
    validator is a SELECT validator in the first case and an ASK
    validator in the second. *)
Theorem make_validator_for_shape_binds SPARQLQueryHelper self s w w' b :
  cache_loaded w ->
  make_validator_for_shape SPARQLQueryHelper self s w = (w', Return b) ->
  shape b = s
  /\ constraint b = declared self
  /\ cls (validator b) = required_class self s
  /\ loaded (validator b)
  /\ exists n r,
       chosen_node self s = Some n
       /\ validator_cache w' !! cache_key (sg self) n = Some r
       /\ heap w' !! r = Some (validator b).
Proof.
  intros Hw. unfold make_validator_for_shape.
  rewrite choose_validator_node_spec.
  destruct (chosen_node self s) as [n|]; [|done].
  destruct (resolve_cache_invariant (sg self) n w Hw) as [_ Hret].
  destruct (resolve (sg self) n w) as [w1 [r|e]]; [|done].
  destruct (Hret r eq_refl) as (Hc & o & Hr & Ho). simpl in *.
  rewrite Hr. simpl. rewrite apply_to_shape_required.
  case_bool_decide as Hcls; [|done].
  intros [= <- <-]. simpl.
  split; [done|]. split; [done|]. split; [done|]. split; [done|].
  by exists n, r.
Qed.

Lemma make_validator_for_shape_binds_witness :
  cls (validator
         (BoundShapeValidatorComponent_init ex_factory (ex_component false)
            ex_node_shape
            (fresh_validator AskConstraintValidator ex_shapes ex_validator
               "ASK { $this a <http://ex/Foo> }")))
  = required_class (ex_component false) ex_node_shape.
Proof.
  assert (H : make_validator_for_shape ex_factory (ex_component false)
                ex_node_shape empty_world
              = ((resolve ex_shapes ex_validator empty_world).1,
                 Return (BoundShapeValidatorComponent_init ex_factory
                           (ex_component false) ex_node_shape
                           (fresh_validator AskConstraintValidator ex_shapes
                              ex_validator
                              "ASK { $this a <http://ex/Foo> }"))))
    by (vm_compute; reflexivity).
  exact (proj1 (proj2 (proj2
           (make_validator_for_shape_binds _ _ _ _ _ _ cache_loaded_empty H)))).
Defined.

(** X14: when [make_validator_for_shape] raises, either no pool applies
    to the shape and nothing was resolved, or the resolution of the
    chosen node raised that error, or the node resolved to a validator of
    the wrong class: an ASK validator taken from the pool of the shape's
    kind, or a SELECT validator taken from the generic pool.  In the last
    case the validator stays in the cache. *)
Theorem make_validator_for_shape_errors SPARQLQueryHelper self s w w' e :
  cache_loaded w ->
  make_validator_for_shape SPARQLQueryHelper self s w = (w', Raise e) ->
  (chosen_node self s = None /\ e = cannot_select_error /\ w' = w)
  \/ (exists n,
        chosen_node self s = Some n
        /\ resolve (sg self) n w = (w', Raise e))
  \/ (exists n r o,
        chosen_node self s = Some n
        /\ resolve (sg self) n w = (w', Return r)
        /\ validator_cache w' !! cache_key (sg self) n = Some r
        /\ heap w' !! r = Some o
        /\ cls o <> required_class self s
        /\ e = match required_class self s with
               | AskConstraintValidator => must_be_ask_error
               | SelectConstraintValidator => must_be_select_error
               end).
Proof.
  intros Hw. unfold make_validator_for_shape.
  rewrite choose_validator_node_spec.
  destruct (chosen_node self s) as [n|]; [|intros [= <- <-]; by left].
  destruct (resolve_cache_invariant (sg self) n w Hw) as [_ Hret].
  destruct (resolve (sg self) n w) as [w1 [r|e1]] eqn:Hres.
  - destruct (Hret r eq_refl) as (Hc & o & Hr & Ho). simpl in *.
    rewrite Hr. simpl. rewrite apply_to_shape_required.
    case_bool_decide as Hcls; [done|].
    intros [= <- <-]. right. right. by exists n, r, o.
  - intros [= <- <-]. right. left. by exists n.
Qed.

Lemma make_validator_for_shape_errors_witness :
  let self := ex_component true in
  let w' := (resolve ex_shapes ex_validator empty_world).1 in
  make_validator_for_shape ex_factory self ex_node_shape empty_world
  = (w', Raise must_be_select_error)
  /\ ((chosen_node self ex_node_shape = None
       /\ must_be_select_error = cannot_select_error /\ w' = empty_world)
      \/ (exists n,
            chosen_node self ex_node_shape = Some n
            /\ resolve (sg self) n empty_world
               = (w', Raise must_be_select_error))
      \/ (exists n r o,
            chosen_node self ex_node_shape = Some n
            /\ resolve (sg self) n empty_world = (w', Return r)
            /\ validator_cache w' !! cache_key (sg self) n = Some r
            /\ heap w' !! r = Some o
            /\ cls o <> required_class self ex_node_shape
            /\ must_be_select_error
               = match required_class self ex_node_shape with
                 | AskConstraintValidator => must_be_ask_error
                 | SelectConstraintValidator => must_be_select_error
                 end)).
Proof.
  intros self w'.
  assert (H : make_validator_for_shape ex_factory self ex_node_shape
                empty_world
              = (w', Raise must_be_select_error))
    by (vm_compute; reflexivity).
  split; [exact H|].
  exact (make_validator_for_shape_errors _ _ _ _ _ _ cache_loaded_empty H).
Defined.

(** ** Messages without placeholders *)

Lemma append_empty_r (s : string) : s +:+ "" = s.
Proof. induction s as [|c s IH]; simpl; [done | by rewrite IH]. Qed.

Lemma str_replace_no_open a new t :
  no_open t = true -> str_replace (replace_me a) new t = t.
Proof.
  intros Ht. rewrite <- (append_empty_r t) at 1.
  change (replace_me a) with (String "{" (String "$" (a +:+ "}"))).
  rewrite str_replace_text by done. by rewrite append_empty_r.
Qed.

Lemma make_message_no_open pm t :
  no_open t = true -> make_message pm t = t.
Proof.
  intros Ht. unfold make_message.
  induction pm as [|[a v] pm IH]; [done|].
  cbn [fold_left]. by rewrite str_replace_no_open.
Qed.

(** X15: without a parameter map [make_messages] returns the stored
    message literals themselves; with any parameter map whatever, a
    template that contains no [{] comes back with its text unchanged, and
    as many messages come back as were stored. *)
Theorem make_messages_keeps_plain_text self params_map ms :
  messages self = Some ms ->
  Forall (fun m => no_open (template_of m) = true) ms ->
  make_messages self None = ms
  /\ make_messages self (Some params_map)
     = map (fun m => string_literal (template_of m)) ms.
Proof.
  intros Hm Hms. unfold make_messages. rewrite Hm. simpl. split; [done|].
  apply map_ext_Forall. eapply Forall_impl; [exact Hms|].
  intros m Hno. simpl. by rewrite make_message_no_open.
Qed.

Lemma make_messages_keeps_plain_text_witness :
  make_messages (validator_with_messages [string_literal "Not a Foo}"])
    (Some ex_chained)
  = [string_literal "Not a Foo}"].
Proof.
  exact (proj2 (make_messages_keeps_plain_text
                  (validator_with_messages [string_literal "Not a Foo}"])
                  ex_chained [string_literal "Not a Foo}"] eq_refl
                  ltac:(repeat constructor))).
Defined.

(** ** Evaluation with an ASK validator *)

Lemma evaluate_returns_clean self tg fvn :
  (exists conforms rs, evaluate self tg fvn = Return (conforms, rs)) ->
  Forall (clean_entry self tg) fvn.
Proof.
  unfold evaluate.
  set (st := {| reports := []; non_conformant := false;
                kw_extra_messages :=
                  SPARQLConstraintComponent_messages (constraint self) |}).
  pose proof (evaluate_loop_outcome self tg fvn st) as H.
  by destruct (evaluate_loop self tg fvn st); [|intros (? & ? & ?)].
Qed.

Lemma ask_signals_outcome self tg f vs :
  cls (validator self) = AskConstraintValidator ->
  match signals_of self tg f vs with
  | Raise e =>
      e = no_ask_answer
      /\ exists v, v ∈ vs /\ bound_ask_outcome self tg f v = NoAskAnswer
  | Return violations =>
      (forall v, v ∈ vs -> bound_ask_outcome self tg f v <> NoAskAnswer)
      /\ has_failure violations = false
      /\ (violations = [] <->
          forall v, v ∈ vs -> bound_ask_outcome self tg f v <> AskAnswer false)
  end.
Proof.
  intros Hcls. unfold signals_of, validate. rewrite Hcls.
  unfold AskConstraintValidator_validate, bound_ask_outcome.
  pose proof (ask_loop_spec (validator self) f tg (Some (query_helper self))
                (bind_vals_of (Some (query_helper self)) None) vs []
                (NoDup_nil_2)) as H.
  destruct (ask_loop _ _ _ _ _ _ _) as [violations|e]; [|done].
  destruct H as (Hall & _ & Hiff). split; [done|]. split.
  - destruct (has_failure violations) eqn:Hf; [|done].
    apply existsb_exists in Hf as ([val vio] & Hin%list_elem_of_In & Htrue).
    apply Hiff in Hin as [Hin|(v & _ & _ & [= _ ->])]; [inversion Hin | done].
  - split.
    + intros -> v Hv Ho.
      assert (Hin : (v, SBool false) ∈ @nil Violation)
        by (apply Hiff; right; by exists v).
      inversion Hin.
    + intros Hnone. destruct violations as [|x xs]; [done|].
      assert (Hx : x ∈ x :: xs) by left.
      apply Hiff in Hx as [Hx|(v & Hv & Hf & _)]; [inversion Hx|].
      by destruct (Hnone v Hv).
Qed.

Lemma focused_violations_nil self tg fvn :
  Forall (clean_entry self tg) fvn ->
  focused_violations_of self tg fvn = [] <->
  forall f vs, (f, vs) ∈ fvn -> signals_of self tg f vs = Return [].
Proof.
  induction 1 as [|[f vs] fvn (violations & Hs & _) _ IH]; simpl.
  - split; [|done]. intros _ f vs Hin. inversion Hin.
  - simpl in Hs. rewrite Hs. split.
    + intros [Hm Hrest]%app_eq_nil f' vs' [[= -> ->]|Hin]%elem_of_cons.
      * rewrite Hs. by destruct violations.
      * by apply IH.
    + intros Hall.
      pose proof (Hall f vs (list_elem_of_here _ _)) as Hf.
      rewrite Hs in Hf. injection Hf as ->. simpl.
      apply IH. intros f' vs' Hin. apply Hall. by right.
Qed.

(** X16: for a component bound to an ASK validator, [evaluate] raises
    only the failure about a missing ask answer, and only when reading
    the ask answer of the query of some focus and value node raises;
    otherwise it returns, and the shape conforms exactly when no query
    answers [False], so an answer [None] conforms like an answer
    [True]. *)
Theorem evaluate_ask_conforms_iff_none_false self tg fvn :
  cls (validator self) = AskConstraintValidator ->
  match evaluate self tg fvn with
  | Raise e =>
      e = no_ask_answer
      /\ exists f vs v,
           (f, vs) ∈ fvn /\ v ∈ vs
           /\ bound_ask_outcome self tg f v = NoAskAnswer
  | Return (conforms, rs) =>
      (forall f vs v,
         (f, vs) ∈ fvn -> v ∈ vs ->
         bound_ask_outcome self tg f v <> NoAskAnswer)
      /\ (conforms = true <->
          forall f vs v,
            (f, vs) ∈ fvn -> v ∈ vs ->
            bound_ask_outcome self tg f v <> AskAnswer false)
  end.
Proof.
  intros Hcls.
  destruct (evaluate self tg fvn) as [[conforms rs]|e] eqn:Hev.
  - assert (Hclean : Forall (clean_entry self tg) fvn)
      by (apply evaluate_returns_clean; eauto).
    apply evaluate_trace in Hev as (_ & _ & ->).
    pose proof (focused_violations_nil self tg fvn Hclean) as Hnil.
    rewrite Forall_forall in Hclean. split.
    + intros f vs v Hin Hv.
      pose proof (ask_signals_outcome self tg f vs Hcls) as Ho.
      destruct (Hclean _ Hin) as (violations & Hs & _). simpl in Hs.
      rewrite Hs in Ho. by apply Ho.
    + transitivity (focused_violations_of self tg fvn = []).
      { by destruct (focused_violations_of self tg fvn). }
      rewrite Hnil. split.
      * intros Hall f vs v Hin Hv.
        pose proof (ask_signals_outcome self tg f vs Hcls) as Ho.
        rewrite (Hall f vs Hin) in Ho. destruct Ho as (_ & _ & Ho).
        by apply Ho.
      * intros Hall f vs Hin.
        pose proof (ask_signals_outcome self tg f vs Hcls) as Ho.
        destruct (Hclean _ Hin) as (violations & Hs & _). simpl in Hs.
        rewrite Hs in Ho |- *. destruct Ho as (_ & _ & Ho). f_equal.
        apply Ho. intros v Hv. by apply (Hall f vs).
  - unfold evaluate in Hev.
    set (st := {| reports := []; non_conformant := false;
                  kw_extra_messages :=
                    SPARQLConstraintComponent_messages (constraint self) |})
      in Hev.
    pose proof (evaluate_loop_outcome self tg fvn st) as H.
    destruct (evaluate_loop self tg fvn st) as [st'|e']; [done|].
    injection Hev as ->.
    destruct H as (before & f & vs & after & -> & _ & Hbad).
    pose proof (ask_signals_outcome self tg f vs Hcls) as Ho.
    destruct Hbad as [Hr|(violations & Hr & Hf & _)]; rewrite Hr in Ho.
    + destruct Ho as (-> & v & Hv & Hno). split; [done|].
      exists f, vs, v. split; [|done].
      apply elem_of_app. right. left.
    + destruct Ho as (_ & Hf' & _). congruence.
Qed.

Lemma evaluate_ask_conforms_iff_none_false_witness :
  evaluate ex_bound ex_none_answer [(ex_a, [ex_a])]
  = Return (true, [])
  /\ (true = true <->
      forall f vs v,
        (f, vs) ∈ [(ex_a, [ex_a])] -> v ∈ vs ->
        bound_ask_outcome ex_bound ex_none_answer f v <> AskAnswer false).
Proof.
  assert (H : evaluate ex_bound ex_none_answer [(ex_a, [ex_a])]
              = Return (true, []))
    by (vm_compute; reflexivity).
  split; [exact H|].
  pose proof (evaluate_ask_conforms_iff_none_false ex_bound ex_none_answer
                [(ex_a, [ex_a])] eq_refl) as Hthm.
  rewrite H in Hthm. exact (proj2 Hthm).
Defined.

(** ** The ASK answer that is no boolean *)

Lemma ask_loop_none_answer self focus query_helper bind_vals value_nodes acc :
  ask_loop self focus ex_none_answer query_helper bind_vals value_nodes acc
  = Return acc.
Proof.
  induction value_nodes as [|v vs IH]; [done|]. simpl.
  by destruct (prepare_query self focus v query_helper bind_vals).
Qed.

(** C6: a data graph whose query results have no boolean answer,
    [askAnswer] being [None].  For every validator, focus, value nodes,
    helper and extra bindings, [AskConstraintValidator.validate] raises
    nothing and returns no signal, and [evaluate] then reports the shape
    as conforming: only a read of the answer that raises [KeyError] or
    [AttributeError] becomes a [ValidationFailure]. *)
Theorem ask_validate_none_answer_passes self focus value_nodes query_helper
    new_bind_vals :
  askAnswer (ex_none_answer "ASK { $this a <http://ex/Foo> }" ∅)
  = AskAnswerNone
  /\ AskConstraintValidator_validate self focus value_nodes ex_none_answer
       query_helper new_bind_vals
     = Return []
  /\ evaluate ex_bound ex_none_answer [(ex_a, [ex_a]); (ex_b, [ex_b])]
     = Return (true, []).
Proof.
  split; [done|]. split.
  - unfold AskConstraintValidator_validate. apply ask_loop_none_answer.
  - vm_compute. reflexivity.
Qed.

(** ** The bindings passed to the query *)

Lemma prepare_query_with_helper self focus v query_helper bind_vals :
  prepare_query self focus v (Some query_helper) bind_vals
  = (bind_vals
       ∪ (pre_bind_variables query_helper focus v (dom bind_vals)).1,
     apply_prefixes query_helper
       (pre_bind_variables query_helper focus v (dom bind_vals)).2).
Proof.
  unfold prepare_query.
  by destruct (pre_bind_variables query_helper focus v (dom bind_vals)).
Qed.

(** C8: with a query helper, both [validate] variants put to the target
    graph, for each value node, the pre-bound query text with prefixes
    applied and the bindings obtained by overlaying the helper's
    parameter bindings with [new_bind_vals] and merging the result over
    the pre-bound bindings: a name is looked up in [new_bind_vals], then
    in the parameter bindings, then in the pre-bound bindings.  What
    each variant returns is decided by the answers of the target graph
    at exactly this text and these bindings: the ASK variant raises when
    one such answer cannot be read and otherwise returns [(v, False)]
    for the answers [False]; the SELECT variant returns the signals of
    the rows of these queries. *)
Theorem query_bindings_two_level_overlay self focus value_nodes query_helper
    new_bind_vals target_graph :
  let extra := default ∅ new_bind_vals in
  let binding_set := extra ∪ param_bind_map query_helper in
  let pre v :=
    pre_bind_variables query_helper focus v (dom binding_set) in
  let init_binds v := binding_set ∪ (pre v).1 in
  let sparql_text v := apply_prefixes query_helper (pre v).2 in
  let result v := target_graph (sparql_text v) (init_binds v) in
  (forall v name,
     init_binds v !! name =
       match extra !! name with
       | Some x => Some x
       | None =>
           match param_bind_map query_helper !! name with
           | Some x => Some x
           | None => (pre v).1 !! name
           end
       end)
  /\ match AskConstraintValidator_validate self focus value_nodes
            target_graph (Some query_helper) new_bind_vals with
     | Raise e =>
         exists v, v ∈ value_nodes /\ askAnswer (result v) = NoAskAnswer
     | Return violations =>
         (forall v, v ∈ value_nodes -> askAnswer (result v) <> NoAskAnswer)
         /\ forall x,
              x ∈ violations <->
              exists v, v ∈ value_nodes
                        /\ askAnswer (result v) = AskAnswer false
                        /\ x = (v, SBool false)
     end
  /\ exists violations,
       SelectConstraintValidator_validate self focus value_nodes
         target_graph (Some query_helper) new_bind_vals
       = Return violations
       /\ forall x,
            x ∈ violations <->
            exists v r s,
              v ∈ value_nodes /\ r ∈ rows (result v)
              /\ row_signal r = Some s /\ x = (v, s).
Proof.
  intros extra binding_set pre init_binds sparql_text result.
  assert (Hbv : bind_vals_of (Some query_helper) new_bind_vals = binding_set)
    by reflexivity.
  assert (Hask : forall v,
             ask_outcome self focus target_graph (Some query_helper)
               binding_set v
             = askAnswer (result v)).
  { intros v. unfold ask_outcome. by rewrite prepare_query_with_helper. }
  assert (Hrows : forall v,
             select_rows self focus target_graph (Some query_helper)
               binding_set v
             = rows (result v)).
  { intros v. unfold select_rows. by rewrite prepare_query_with_helper. }
  split; [|split].
  - intros v name. unfold init_binds, binding_set.
    rewrite !lookup_update. by destruct (extra !! name).
  - unfold AskConstraintValidator_validate. rewrite Hbv.
    pose proof (ask_loop_spec self focus target_graph (Some query_helper)
                  binding_set value_nodes [] (NoDup_nil_2)) as H.
    destruct (ask_loop _ _ _ _ _ _ _) as [violations|e].
    + destruct H as (Hall & _ & Hiff). split.
      * intros v Hv. rewrite <- Hask. by apply Hall.
      * intros x. rewrite Hiff. split.
        -- intros [Hx|(v & Hv & Hf & ->)]; [inversion Hx|].
           exists v. by rewrite <- Hask.
        -- intros (v & Hv & Hf & ->). right. exists v. by rewrite Hask.
    + destruct H as (_ & v & Hv & Hno). exists v. by rewrite <- Hask.
  - eexists. split; [reflexivity|]. rewrite Hbv.
    destruct (select_loop_spec self focus target_graph (Some query_helper)
                binding_set value_nodes [] (NoDup_nil_2)) as [_ Hiff].
    intros x. rewrite Hiff. split.
    + intros [Hx|(v & r & s & Hv & Hr & Hs & ->)]; [inversion Hx|].
      exists v, r, s. by rewrite <- Hrows.
    + intros (v & r & s & Hv & Hr & Hs & ->). right.
      exists v, r, s. by rewrite Hrows.
Qed.
